(** * The event subsystem and the dependency scanner of wails v2

    A shallow embedding of [internal/subsystem/event.go] and of the
    function [Dependancies] of
    [internal/system/packagemanager/packagemanager.go].

    Go pointers to [eventListener] are locations of an explicit heap, the
    [listeners] map of the [Event] struct is a finite map from event names
    to slices of such locations, and every function of the subsystem is a
    computation in a state-and-panic monad over a [World]: the [Event]
    value, the heap, and the effects the code has on its surroundings
    (goroutines started, log lines, lock and map accesses in program
    order). *)

From Stdlib Require Import ZArith Ascii String.
From stdpp Require Import base tactics option list gmap strings fin_maps sorting.

Local Open Scope string_scope.
Local Open Scope list_scope.

(** ** Values crossing the bus *)

(** [interface{}] values carried by an event: opaque to the subsystem,
    which only forwards them. *)
Inductive iface : Type :=
| INil
| IInt (z : Z)
| IString (s : string)
| IBool (b : bool).

(** A [func(...interface{})] value.  The subsystem stores and starts
    callbacks but never looks inside them, so a callback is its identity. *)
Definition Callback : Type := nat.

(** Package [message]: the two payloads of the "event" channel. *)
Module EventMessage.
Record t : Type := mk { Name : string; Data : list iface }.
End EventMessage.

Module OnEventMessage.
Record t : Type := mk { Name : string; Callback : Callback }.
End OnEventMessage.

(** What [Message.Data()] may hold, as far as the type assertions of
    [Start] can tell. *)
Inductive payload : Type :=
| PEvent (m : EventMessage.t)        (* *message.EventMessage *)
| POnEvent (m : OnEventMessage.t)    (* *message.OnEventMessage *)
| POther.                            (* nil, or any other dynamic type *)

(** Package [servicebus]: a message has a topic and a payload. *)
Module Message.
Record t : Type := mk { Topic : string; Data : payload }.
End Message.

Definition Channel : Type := nat.
Definition error : Type := string.

(** ** strings.Split *)

(** [strings.Split(s, sep)] for a separator of one byte, the only use in
    the source ([":"]): the substrings between the separators, one more
    than there are separators, so the result is never empty. *)
Fixpoint Split (s : string) (sep : ascii) : list string :=
  match s with
  | EmptyString => [EmptyString]
  | String c s' =>
      if Ascii.eqb c sep then EmptyString :: Split s' sep
      else match Split s' sep with
           | seg :: rest => String c seg :: rest
           | [] => [String c EmptyString]
           end
  end.

(** How often the byte [sep] occurs in [s]. *)
Fixpoint occurrences (sep : ascii) (s : string) : nat :=
  match s with
  | EmptyString => 0
  | String c s' => (if Ascii.eqb c sep then 1 else 0) + occurrences sep s'
  end.

(** ** The event subsystem *)

Module subsystem.

(** A pointer [*eventListener]; a location outside the heap stands for a
    pointer that cannot be dereferenced (Go's nil). *)
Abbreviation loc := nat (only parsing).

(** eventListener holds a callback function which is invoked when the
    event listened for is emitted.  It has a counter which indicates how
    the total number of events it is interested in.  A value of zero
    means it does not expire (default).

    The only arithmetic on [counter] is [counter--] under the guard
    [counter > 0], where an int64 cannot wrap around, so the field is an
    integer and the decrement is a subtraction. *)
Record eventListener : Type := mkListener {
  callback : Callback;   (* Function to call with emitted event data *)
  counter : Z;           (* The number of times this callback may be called. -1 = infinite *)
  delete : bool;         (* Flag to indicate that this listener should be deleted *)
}.

(** The [Event] struct.  [notifyLock] has no field here: taking and
    releasing it is recorded in the [sync] trace of the world.  A key
    that is absent from [listeners] reads as the nil slice. *)
Record Event : Type := mkEvent {
  quitChannel : Channel;
  eventChannel : Channel;
  running : bool;
  listeners : gmap string (list loc);
  logger : string;
}.

(** Goroutines started with [go]. *)
Inductive task : Type :=
| GoCallback (cb : Callback) (args : list iface)        (* go listener.callback(message.Data...) *)
| GoNotify (eventName : string) (m : EventMessage.t)    (* go e.notifyListeners(eventName, event) *)
| GoLoop.                                               (* go func() { for e.running ... }() *)

(** Lines written through the logger or [println]; only the format
    string is kept. *)
Inductive logline : Type :=
| LogTrace (format : string)
| LogError (format : string)
| Println (text : string).

(** Accesses to the shared map and to the lock guarding it. *)
Inductive syncop : Type :=
| SLock
| SUnlock
| SMapRead (key : string)
| SMapWrite (key : string).

Record World : Type := mkWorld {
  this : Event;                 (* the receiver [e] *)
  heap : list eventListener;    (* every eventListener allocated so far *)
  goroutines : list task;       (* started so far, oldest first *)
  output : list logline;        (* written so far, oldest first *)
  sync : list syncop;           (* performed so far, oldest first *)
}.

(** *** The monad: state threading, and panics that abort *)

Inductive result (A : Type) : Type :=
| Ok (a : A) (w : World)
| Panic (msg : string).
Arguments Ok {A} a w.
Arguments Panic {A} msg.

Definition M (A : Type) : Type := World -> result A.

Definition ret {A} (a : A) : M A := fun w => Ok a w.

Definition bind {A B} (c : M A) (k : A -> M B) : M B :=
  fun w => match c w with
           | Ok a w' => k a w'
           | Panic msg => Panic msg
           end.

Declare Scope go_scope.
Delimit Scope go_scope with go.
Notation "x <- c ; k" := (bind c (fun x => k))
  (at level 100, c at next level, right associativity) : go_scope.
Notation "c ;; k" := (bind c (fun _ => k))
  (at level 100, right associativity) : go_scope.
Local Open Scope go_scope.

Definition panic {A} (msg : string) : M A := fun _ => Panic msg.

(** Field updates of the world. *)
Definition with_listeners (m : gmap string (list loc)) (w : World) : World :=
  {| this := {| quitChannel := quitChannel (this w);
                eventChannel := eventChannel (this w);
                running := running (this w);
                listeners := m;
                logger := logger (this w) |};
     heap := heap w; goroutines := goroutines w;
     output := output w; sync := sync w |}.

Definition with_running (b : bool) (w : World) : World :=
  {| this := {| quitChannel := quitChannel (this w);
                eventChannel := eventChannel (this w);
                running := b;
                listeners := listeners (this w);
                logger := logger (this w) |};
     heap := heap w; goroutines := goroutines w;
     output := output w; sync := sync w |}.

Definition with_heap (h : list eventListener) (w : World) : World :=
  {| this := this w; heap := h; goroutines := goroutines w;
     output := output w; sync := sync w |}.

Definition with_sync (o : syncop) (w : World) : World :=
  {| this := this w; heap := heap w; goroutines := goroutines w;
     output := output w; sync := sync w ++ [o] |}.

(** *** Primitive steps *)

(** [e.notifyLock.Lock()] and [e.notifyLock.Unlock()]. *)
Definition Lock : M unit := fun w => Ok tt (with_sync SLock w).
Definition Unlock : M unit := fun w => Ok tt (with_sync SUnlock w).

(** [e.listeners[key]] read: [None] is the nil slice of an absent key. *)
Definition mapRead (key : string) : M (option (list loc)) :=
  fun w => Ok (listeners (this w) !! key) (with_sync (SMapRead key) w).

(** [e.listeners[key] = s]. *)
Definition mapWrite (key : string) (s : list loc) : M unit :=
  fun w => Ok tt (with_sync (SMapWrite key)
                    (with_listeners (<[key := s]> (listeners (this w))) w)).

(** [&eventListener{...}]: a fresh location. *)
Definition new (r : eventListener) : M loc :=
  fun w => Ok (length (heap w)) (with_heap (heap w ++ [r]) w).

(** Reading the record behind a pointer. *)
Definition load (l : loc) : M eventListener :=
  fun w => match heap w !! l with
           | Some r => Ok r w
           | None => Panic "invalid memory address or nil pointer dereference"
           end.

(** Writing one field through a pointer. *)
Definition setCounter (l : loc) (c : Z) : M unit :=
  r <- load l;
  fun w => Ok tt (with_heap (<[l := mkListener (callback r) c (delete r)]> (heap w)) w).

Definition setDelete (l : loc) (b : bool) : M unit :=
  r <- load l;
  fun w => Ok tt (with_heap (<[l := mkListener (callback r) (counter r) b]> (heap w)) w).

(** The [go] statement. *)
Definition go (t : task) : M unit :=
  fun w => Ok tt {| this := this w; heap := heap w;
                    goroutines := goroutines w ++ [t];
                    output := output w; sync := sync w |}.

Definition write (line : logline) : M unit :=
  fun w => Ok tt {| this := this w; heap := heap w;
                    goroutines := goroutines w;
                    output := output w ++ [line]; sync := sync w |}.

Definition getRunning : M bool := fun w => Ok (running (this w)) w.
Definition setRunning (b : bool) : M unit := fun w => Ok tt (with_running b w).

(** [for _, x := range xs { s = body(s, x) }] with the loop-carried
    variables in [s]. *)
Fixpoint forRange {S : Type} (xs : list loc) (body : S -> loc -> M S) (s : S) : M S :=
  match xs with
  | [] => ret s
  | x :: xs' => s' <- body s x; forRange xs' body s'
  end.

(** [append(s, x)] on a possibly nil slice. *)
Definition append (s : option (list loc)) (x : loc) : list loc :=
  match s with
  | Some s => s ++ [x]
  | None => [x]
  end.

(** *** RegisterListener *)

Definition RegisterListener (eventName : string) (cb : Callback) : M unit :=
  thisListener <- new {| callback := cb; counter := 0%Z; delete := false |};
  Lock;;
  current <- mapRead eventName;
  mapWrite eventName (append current thisListener);;
  Unlock.

(** *** notifyListeners *)

(** One turn of the first loop: decrement a positive counter, start the
    callback, flag the listener when its counter is zero.  The message
    pointer is taken to be non-nil, as the one [Start] passes is. *)
Definition notifyOne (m : EventMessage.t) (itemsToDelete : bool) (listener : loc)
  : M bool :=
  r <- load listener;
  (if (0 <? counter r)%Z then setCounter listener (counter r - 1)%Z else ret tt);;
  r <- load listener;
  go (GoCallback (callback r) (EventMessage.Data m));;
  r <- load listener;
  if (counter r =? 0)%Z
  then setDelete listener true;; ret true
  else ret itemsToDelete.

(** One turn of the second loop: keep the listeners not flagged. *)
Definition keepOne (newListeners : list loc) (listener : loc) : M (list loc) :=
  r <- load listener;
  if negb (delete r) then ret (newListeners ++ [listener]) else ret newListeners.

(** The part of [notifyListeners] from [e.notifyLock.Lock()] to
    [e.notifyLock.Unlock()], on the slice read before. *)
Definition notifyLocked (eventName : string) (m : EventMessage.t)
    (snapshot : list loc) : M unit :=
  Lock;;
  itemsToDelete <- forRange snapshot (notifyOne m) false;
  (if itemsToDelete
   then newListeners <- forRange snapshot keepOne [];
        mapWrite eventName newListeners
   else ret tt);;
  Unlock.

Definition notifyListeners (eventName : string) (m : EventMessage.t) : M unit :=
  current <- mapRead eventName;
  match current with
  | None => write (Println ("no listeners for " +:+ eventName))
  | Some snapshot => notifyLocked eventName m snapshot
  end.

(** *** The run loop of Start *)

(** [s[i]] on a slice: out of range is a run-time panic. *)
Definition index (s : list string) (i : nat) : M string :=
  fun w => match s !! i with
           | Some x => Ok x w
           | None => Panic "index out of range"
           end.

(** The type assertions of [Data()] to a pointer to [message.EventMessage]
    and to [message.OnEventMessage]: the one-result form panics on any
    other payload. *)
Definition assertEventMessage (d : payload) : M EventMessage.t :=
  match d with
  | PEvent m => ret m
  | _ => panic "interface conversion"
  end.

Definition assertOnEventMessage (d : payload) : M OnEventMessage.t :=
  match d with
  | POnEvent m => ret m
  | _ => panic "interface conversion"
  end.

(** The body of [case eventMessage := <-e.eventChannel].  [continue]
    ends the body, as does falling out of the [switch]. *)
Definition onEventMessage (eventMessage : Message.t) : M unit :=
  let splitTopic := Split (Message.Topic eventMessage) ":" in
  eventType <- index splitTopic 1;
  if String.eqb eventType "emit" then
    if negb (Nat.eqb (length splitTopic) 4) then
      write (LogError "Received emit message with invalid topic format. Expected 4 sections in topic, got %s")
    else
      eventSource <- index splitTopic 3;
      write (LogTrace "Got Event Message: %s %+v");;
      event <- assertEventMessage (Message.Data eventMessage);
      let eventName := EventMessage.Name event in
      if String.eqb eventSource "j" then
        write (LogTrace "Notify Go subscribers to event '%s'");;
        go (GoNotify eventName event)
      else if String.eqb eventSource "g" then
        write (LogTrace "Got Go Event: %s");;
        go (GoNotify eventName event)
      else
        write (LogError "unknown emit event message: %+v")
  else if String.eqb eventType "on" then
    message <- assertOnEventMessage (Message.Data eventMessage);
    let eventName := OnEventMessage.Name message in
    let callback := OnEventMessage.Callback message in
    RegisterListener eventName callback;;
    write (LogTrace "Registered listener for event '%s' with callback %p")
  else
    write (LogError "unknown event message: %+v").

Definition shutdown : M unit := write (LogTrace "Shutdown").

(** What the [select] receives, in the order it receives it. *)
Inductive delivery : Type :=
| Quit                          (* <-e.quitChannel *)
| Deliver (m : Message.t).      (* <-e.eventChannel *)

(** The goroutine of [Start]: [for e.running { select ... }] and then
    [e.shutdown()].  With nothing left to receive the [select] blocks and
    the goroutine goes no further. *)
Fixpoint loop (inbox : list delivery) : M unit :=
  isRunning <- getRunning;
  if isRunning then
    match inbox with
    | [] => ret tt
    | Quit :: rest => setRunning false;; loop rest
    | Deliver eventMessage :: rest => onEventMessage eventMessage;; loop rest
    end
  else shutdown.

(** [Start] itself only starts that goroutine and returns nil. *)
Definition Start : M (option error) :=
  write (LogTrace "Starting");;
  setRunning true;;
  go GoLoop;;
  ret None.

(** *** NewEvent *)

Section NewEvent.
(** Package [servicebus] is not part of this development: the bus is
    any type with a [Subscribe] that returns the bus after the call, a
    channel and an error (nil is [None]). *)
Variable ServiceBus : Type.
Variable Subscribe : ServiceBus -> string -> ServiceBus * (Channel * option error).

(** Package [logger] likewise: [CustomLogger] makes the named logger that
    the [Event] keeps, here the label its lines are written under. *)
Variable Logger : Type.
Variable CustomLogger : Logger -> string -> string.

Definition NewEvent (bus : ServiceBus) (logger : Logger)
  : ServiceBus * (option Event * option error) :=
  let '(bus, (quitChannel, err)) := Subscribe bus "quit" in
  match err with
  | Some err => (bus, (None, Some err))
  | None =>
      let '(bus, (eventChannel, err)) := Subscribe bus "event" in
      match err with
      | Some err => (bus, (None, Some err))
      | None =>
          (bus, (Some {| quitChannel := quitChannel;
                         eventChannel := eventChannel;
                         running := false;
                         listeners := ∅;
                         logger := CustomLogger logger "Event Subsystem" |}, None))
      end
  end.
End NewEvent.

(** The world right after construction: nothing allocated, nothing done. *)
Definition boot (e : Event) : World :=
  {| this := e; heap := []; goroutines := []; output := []; sync := [] |}.

(** *** Notions used to state the properties *)

(** The record a listener becomes in one turn of the first loop. *)
Definition fire (r : eventListener) : eventListener :=
  let c := if (0 <? counter r)%Z then (counter r - 1)%Z else counter r in
  {| callback := callback r; counter := c;
     delete := if (c =? 0)%Z then true else delete r |}.

(** The heap after the first loop has run over [snapshot]. *)
Definition fired (snapshot : list loc) (h : list eventListener) : list eventListener :=
  foldl (fun h l => alter fire l h) h snapshot.

(** The value of [itemsToDelete] after the first loop. *)
Fixpoint marks (snapshot : list loc) (h : list eventListener) : bool :=
  match snapshot with
  | [] => false
  | l :: rest =>
      let h' := alter fire l h in
      match h' !! l with
      | Some r => (counter r =? 0)%Z || marks rest h'
      | None => marks rest h'
      end
  end.

(** A listener the second loop keeps. *)
Definition kept (h : list eventListener) (l : loc) : Prop :=
  delete <$> (h !! l) = Some false.

#[export] Instance kept_dec h l : Decision (kept h l).
Proof. unfold kept. apply _. Defined.

(** The callback behind a pointer. *)
Definition callbackAt (h : list eventListener) (l : loc) : Callback :=
  from_option callback 0%nat (h !! l).

(** The goroutines one notification starts for [snapshot]. *)
Definition launches (m : EventMessage.t) (h : list eventListener)
    (snapshot : list loc) : list task :=
  map (fun l => GoCallback (callbackAt h l) (EventMessage.Data m)) snapshot.

(** Every pointer of [snapshot] can be dereferenced in [h]. *)
Definition allocated (h : list eventListener) (snapshot : list loc) : Prop :=
  Forall (fun l => l < length h) snapshot.

(** The world [notifyLocked] leaves behind. *)
Definition afterNotify (eventName : string) (m : EventMessage.t)
    (snapshot : list loc) (w : World) : World :=
  let h' := fired snapshot (heap w) in
  let touched := marks snapshot (heap w) in
  {| this :=
       {| quitChannel := quitChannel (this w);
          eventChannel := eventChannel (this w);
          running := running (this w);
          listeners :=
            if touched
            then <[eventName := filter (kept h') snapshot]> (listeners (this w))
            else listeners (this w);
          logger := logger (this w) |};
     heap := h';
     goroutines := goroutines w ++ launches m (heap w) snapshot;
     output := output w;
     sync := sync w ++ SLock :: (if touched then [SMapWrite eventName] else []) ++ [SUnlock] |}.

(** The world [RegisterListener] leaves behind. *)
Definition afterRegister (eventName : string) (cb : Callback) (w : World) : World :=
  {| this :=
       {| quitChannel := quitChannel (this w);
          eventChannel := eventChannel (this w);
          running := running (this w);
          listeners :=
            <[eventName := append (listeners (this w) !! eventName) (length (heap w))]>
              (listeners (this w));
          logger := logger (this w) |};
     heap := heap w ++ [{| callback := cb; counter := 0; delete := false |}];
     goroutines := goroutines w;
     output := output w;
     sync := sync w ++ [SLock; SMapRead eventName; SMapWrite eventName; SUnlock] |}.

(** What holds of every world the subsystem reaches: the slices of the
    map hold allocated pointers, no pointer twice, and no pointer under
    two event names. *)
Record wf (w : World) : Prop := mkWf {
  wf_allocated : forall k s,
    listeners (this w) !! k = Some s -> allocated (heap w) s;
  wf_nodup : forall k s,
    listeners (this w) !! k = Some s -> NoDup s;
  wf_apart : forall k1 k2 s1 s2 l,
    k1 <> k2 ->
    listeners (this w) !! k1 = Some s1 ->
    listeners (this w) !! k2 = Some s2 ->
    l ∈ s1 -> l ∉ s2;
}.

(** The worlds [RegisterListener] and [notifyListeners] reach from a
    freshly constructed subsystem. *)
Inductive reachable : World -> Prop :=
| reach_boot e : listeners e = ∅ -> reachable (boot e)
| reach_register w w' eventName cb :
    reachable w -> RegisterListener eventName cb w = Ok tt w' -> reachable w'
| reach_notify w w' eventName m :
    reachable w -> notifyListeners eventName m w = Ok tt w' -> reachable w'.

(** The registry's sequence for an event name; the nil slice of an
    absent key has no records. *)
Definition sequence (w : World) (eventName : string) : list loc :=
  default [] (listeners (this w) !! eventName).

(** Whether every access to the map in a trace happens with the lock
    held; [held] says whether it is held when the trace starts. *)
Fixpoint guarded (held : bool) (t : list syncop) : bool :=
  match t with
  | [] => true
  | SLock :: t => guarded true t
  | SUnlock :: t => guarded false t
  | SMapRead _ :: t => held && guarded held t
  | SMapWrite _ :: t => held && guarded held t
  end.

(** Whether the lock is held after a trace; [held] says whether it is
    held when the trace starts. *)
Fixpoint heldAfter (held : bool) (t : list syncop) : bool :=
  match t with
  | [] => held
  | SLock :: t => heldAfter true t
  | SUnlock :: t => heldAfter false t
  | SMapRead _ :: t => heldAfter held t
  | SMapWrite _ :: t => heldAfter held t
  end.

(** The messages the loop body returns from: a topic of two segments or
    more, whose payload is the one the operation asserts. *)
Definition wellTyped (eventMessage : Message.t) : Prop :=
  exists s1 op rest,
    Split (Message.Topic eventMessage) ":" = s1 :: op :: rest /\
    (op = "emit" -> length rest = 2%nat ->
     exists event, Message.Data eventMessage = PEvent event) /\
    (op = "on" -> exists message, Message.Data eventMessage = POnEvent message).

End subsystem.

(** ** The dependency scanner *)

(** [sort.Slice(x, less)] of Go's standard library, with [less] on the
    elements rather than on their indices: an insertion sort, which is
    what the library runs on short slices.  The library's sort is not
    stable; [Dependancies] sorts by the keys of a map, which are distinct,
    so that the order of equal elements never shows. *)
Fixpoint insert {A : Type} (less : A -> A -> bool) (x : A) (l : list A) : list A :=
  match l with
  | [] => [x]
  | y :: l' => if less x y then x :: y :: l' else y :: insert less x l'
  end.

Definition sort_Slice {A : Type} (less : A -> A -> bool) (x : list A) : list A :=
  foldr (insert less) [] x.

(** [b] is not less than [a]: the order in which a sorted slice lists
    its elements. *)
Definition notAfter {A : Type} (less : A -> A -> bool) (a b : A) : Prop :=
  less b a = false.

Module packagemanager.

(** Package contains information about a system package. *)
Module Package.
Record t : Type := mk {
  Name : string;
  Version : string;
  InstallCommand : gmap string string;
  SystemPackage : bool;
  Library : bool;
  Optional : bool;
}.
End Package.

(** Dependancy represents a system package that we require. *)
Module Dependancy.
Record t : Type := mk {
  Name : string;
  PackageName : string;
  Installed : bool;
  InstallCommand : string;
  Version : string;
  Optional : bool;
  External : bool;
}.
End Dependancy.

(** DependencyList is a list of Dependency instances; the nil slice is
    the empty list. *)
Abbreviation DependencyList := (list Dependancy.t) (only parsing).

(** The [PackageManager] interface.  [Packages] gives the entries of the
    [packagemap] in the order in which [range] visits them, an order Go
    leaves open; a method returning [(bool, error)] gives both values,
    with [None] for the nil error.  The methods of the implementations
    run shell commands; within one scan they are functions of the
    package. *)
Class PackageManager (P : Type) : Type := {
  Name : P -> string;
  Packages : P -> list (string * list Package.t);
  PackageInstalled : P -> Package.t -> bool * option error;
  PackageAvailable : P -> Package.t -> bool * option error;
  InstallCommand : P -> Package.t -> string;
}.

Section Dependancies.
Context {P : Type} `{PackageManager P}.

(** [AppVersion(name)] asks gcc, pkg-config, npm or docker for its
    version through the shell. *)
Variable AppVersion : string -> string.

(** The inner loop [for _, pkg := range packages], on the dependency
    built so far: the dependency when the loop ends or breaks, the
    error when the function returns from inside the loop. *)
Fixpoint scanPackages (p : P) (name : string) (dependency : Dependancy.t)
    (packages : list Package.t) : Dependancy.t + error :=
  match packages with
  | [] => inl dependency
  | pkg :: rest =>
      let dependency :=
        Dependancy.mk (Dependancy.Name dependency)
          (Dependancy.PackageName dependency)
          (Dependancy.Installed dependency)
          (InstallCommand p pkg)
          (Dependancy.Version dependency)
          (Package.Optional pkg)
          (negb (Package.SystemPackage pkg)) in
      let '(packageavailable, err) := PackageAvailable p pkg in
      match err with
      | Some err => inr err
      | None =>
          if packageavailable then
            let dependency :=
              Dependancy.mk (Dependancy.Name dependency)
                (Package.Name pkg)
                (Dependancy.Installed dependency)
                (Dependancy.InstallCommand dependency)
                (Package.Version pkg)
                (Dependancy.Optional dependency)
                (Dependancy.External dependency) in
            let '(installed, err) := PackageInstalled p pkg in
            match err with
            | Some err => inr err
            | None =>
                if installed then
                  inl (Dependancy.mk (Dependancy.Name dependency)
                         (Dependancy.PackageName dependency)
                         true
                         (Dependancy.InstallCommand dependency)
                         (if negb (Package.Library pkg)
                          then AppVersion name else Package.Version pkg)
                         (Dependancy.Optional dependency)
                         (Dependancy.External dependency))
                else
                  inl (Dependancy.mk (Dependancy.Name dependency)
                         (Dependancy.PackageName dependency)
                         (Dependancy.Installed dependency)
                         (InstallCommand p pkg)
                         (Dependancy.Version dependency)
                         (Dependancy.Optional dependency)
                         (Dependancy.External dependency))
            end
          else scanPackages p name dependency rest
      end
  end.

(** The outer loop [for name, packages := range p.Packages()]. *)
Fixpoint scanAll (p : P) (entries : list (string * list Package.t))
    (dependencies : DependencyList) : DependencyList + error :=
  match entries with
  | [] => inl dependencies
  | (name, packages) :: rest =>
      let dependency := Dependancy.mk name "" false "" "" false false in
      match scanPackages p name dependency packages with
      | inr err => inr err
      | inl dependency => scanAll p rest (dependencies ++ [dependency])
      end
  end.

Definition Dependancies (p : P) : DependencyList * option error :=
  match scanAll p (Packages p) [] with
  | inr err => ([], Some err)
  | inl dependencies =>
      (sort_Slice
         (fun di dj => String.ltb (Dependancy.Name di) (Dependancy.Name dj))
         dependencies,
       None)
  end.
End Dependancies.

(** *** The install commands of a DependencyList *)

(** The elements of a [DependencyList] are pointers; they are taken to
    be non-nil, as the ones [Dependancies] appends are. *)

(** InstallAllRequiredCommand returns the command you need to use to
    install all required dependencies. *)
Definition InstallAllRequiredCommand (d : DependencyList) : string :=
  foldl (fun result dependency =>
           if negb (String.eqb (Dependancy.PackageName dependency) "") then
             if negb (Dependancy.Installed dependency)
                && negb (Dependancy.Optional dependency) then
               if String.eqb result ""
               then Dependancy.InstallCommand dependency
               else result +:+ (" " +:+ Dependancy.PackageName dependency)
             else result
           else result)
        "" d.

(** InstallAllOptionalCommand returns the command you need to use to
    install all optional dependencies. *)
Definition InstallAllOptionalCommand (d : DependencyList) : string :=
  foldl (fun result dependency =>
           if negb (String.eqb (Dependancy.PackageName dependency) "") then
             if negb (Dependancy.Installed dependency)
                && Dependancy.Optional dependency then
               if String.eqb result ""
               then Dependancy.InstallCommand dependency
               else result +:+ (" " +:+ Dependancy.PackageName dependency)
             else result
           else result)
        "" d.

(** *** Finding the system package manager *)

(** A list of package manager commands. *)
Definition pmcommands : list string :=
  ["eopkg"; "apt"; "yum"; "pacman"; "emerge"; "zypper"].

Section Find.
(** [shell.CommandExists] and the six constructors live outside this
    development.  A constructor gives a pointer to its manager, which as
    a [PackageManager] interface value is never nil; the nil interface is
    [None]. *)
Variable CommandExists : string -> bool.
Variable Manager : Type.
Variables NewEopkg NewApt NewYum NewPacman NewEmerge NewZypper : string -> Manager.

Definition newPackageManager (pmname : string) (osid : string) : option Manager :=
  if String.eqb pmname "eopkg" then Some (NewEopkg osid)
  else if String.eqb pmname "apt" then Some (NewApt osid)
  else if String.eqb pmname "yum" then Some (NewYum osid)
  else if String.eqb pmname "pacman" then Some (NewPacman osid)
  else if String.eqb pmname "emerge" then Some (NewEmerge osid)
  else if String.eqb pmname "zypper" then Some (NewZypper osid)
  else None.

(** The loop of [Find] over the commands still to try. *)
Fixpoint findIn (commands : list string) (osid : string) : option Manager :=
  match commands with
  | [] => None
  | pmname :: rest =>
      if CommandExists pmname then newPackageManager pmname osid
      else findIn rest osid
  end.

(** Find will attempt to find the system package manager. *)
Definition Find (osid : string) : option Manager := findIn pmcommands osid.
End Find.

(** *** Versions of the tools *)

Section AppVersion.
(** [shell.RunCommand(dir, command, args...)] gives the standard output,
    the standard error and an error; it and the three functions of Go's
    [strings] package used on its output are taken as they come. *)
Variable RunCommand : string -> string -> list string -> string * string * option error.
Variable TrimSpace : string -> string.
Variable TrimPrefix : string -> string -> string.
Variable ReplaceAll : string -> string -> string -> string.

Definition gccVersion : string :=
  (* Try "-dumpfullversion" *)
  let '(version, _, err) := RunCommand "." "gcc" ["-dumpfullversion"] in
  let version :=
    match err with
    | Some _ =>
        (* Try -dumpversion; the error is ignored *)
        let '(dumpversion, _, err) := RunCommand "." "gcc" ["-dumpversion"] in
        match err with
        | None => dumpversion
        | Some _ => version
        end
    | None => version
    end in
  TrimSpace version.

Definition pkgConfigVersion : string :=
  let '(version, _, _) := RunCommand "." "pkg-config" ["--version"] in
  TrimSpace version.

Definition npmVersion : string :=
  let '(version, _, _) := RunCommand "." "npm" ["--version"] in
  TrimSpace version.

Definition dockerVersion : string :=
  let '(version, _, _) := RunCommand "." "docker" ["--version"] in
  let version := TrimPrefix version "Docker version " in
  let version := ReplaceAll version ", build " " (" in
  TrimSpace version +:+ ")".

(** AppVersion returns the version for application related to the given
    package. *)
Definition AppVersion (name : string) : string :=
  if String.eqb name "gcc" then gccVersion
  else if String.eqb name "pkg-config" then pkgConfigVersion
  else if String.eqb name "npm" then npmVersion
  else if String.eqb name "docker" then dockerVersion
  else "".
End AppVersion.

(** *** Notions used to state the properties *)

(** The dependency a scan starts from: [&Dependancy{Name: name}]. *)
Definition blank (name : string) : Dependancy.t :=
  Dependancy.mk name "" false "" "" false false.

(** Whether a dependency counts for an install command: it has a package
    name, is not installed, and is optional or not as asked. *)
Definition wanted (optional : bool) (d : Dependancy.t) : bool :=
  negb (String.eqb (Dependancy.PackageName d) "")
  && negb (Dependancy.Installed d)
  && Bool.eqb (Dependancy.Optional d) optional.

(** One turn of the loop of an install command, for the dependencies
    that are optional or not as asked. *)
Definition installStep (optional : bool) (result : string)
    (dependency : Dependancy.t) : string :=
  if wanted optional dependency then
    if String.eqb result ""
    then Dependancy.InstallCommand dependency
    else result +:+ (" " +:+ Dependancy.PackageName dependency)
  else result.

(** The same dependency with [Optional] the other way. *)
Definition flipOptional (d : Dependancy.t) : Dependancy.t :=
  Dependancy.mk (Dependancy.Name d) (Dependancy.PackageName d)
    (Dependancy.Installed d) (Dependancy.InstallCommand d)
    (Dependancy.Version d) (negb (Dependancy.Optional d))
    (Dependancy.External d).

(** What [Dependancies] does with an order of visit of the package map
    other than the one [Packages] lists: the map is the same, [range]
    went through it differently. *)
Definition DependanciesIn {P : Type} `{PackageManager P}
    (AppVersion : string -> string) (p : P)
    (visit : list (string * list Package.t)) : DependencyList * option error :=
  match scanAll AppVersion p visit [] with
  | inr err => ([], Some err)
  | inl dependencies =>
      (sort_Slice
         (fun di dj => String.ltb (Dependancy.Name di) (Dependancy.Name dj))
         dependencies,
       None)
  end.

(** Ascending order of the [Name] field: going up the list, names never
    go down in the byte-wise order of Go's [<] on strings. *)
Definition sortedByName (d : DependencyList) : Prop :=
  forall i j di dj,
    (i < j)%nat -> d !! i = Some di -> d !! j = Some dj ->
    String.ltb (Dependancy.Name dj) (Dependancy.Name di) = false.

(** [s1] is not after [s2] in Go's order on strings. *)
Definition le (s1 s2 : string) : Prop := String.ltb s2 s1 = false.

(** A package manager in which every package is available and none is
    installed, with its map visited out of order. *)
Inductive toy : Type := Toy.

Definition toyPackage (name : string) : Package.t :=
  Package.mk name "1.0" ∅ true true false.

#[export] Instance toy_manager : PackageManager toy := {|
  Name := fun _ => "toy";
  Packages := fun _ => [("npm", [toyPackage "npm"]);
                        ("gcc", [toyPackage "build-essential"]);
                        ("libgtk-3", [toyPackage "libgtk-3-dev"])];
  PackageInstalled := fun _ _ => (false, None);
  PackageAvailable := fun _ _ => (true, None);
  InstallCommand := fun _ pkg => "sudo apt install " +:+ Package.Name pkg;
|}.

(** A package manager given by tables: the package map in the order of
    its visit, and the names of the packages that are not available, that
    are installed, and whose availability probe fails. *)
Record table : Type := mkTable {
  rows : list (string * list Package.t);
  missing : list string;
  present : list string;
  failing : list string;
}.

#[export] Instance table_manager : PackageManager table := {|
  Name := fun _ => "table";
  Packages := rows;
  PackageInstalled := fun t pkg =>
    (bool_decide (Package.Name pkg ∈ present t), None);
  PackageAvailable := fun t pkg =>
    if bool_decide (Package.Name pkg ∈ failing t)
    then (false, Some "probe failed")
    else (bool_decide (Package.Name pkg ∉ missing t), None);
  InstallCommand := fun _ pkg => "sudo apt install " +:+ Package.Name pkg;
|}.

(** A tool package: neither a library nor optional. *)
Definition tool (name version : string) : Package.t :=
  Package.mk name version ∅ true false false.

End packagemanager.

(** * Properties of the event subsystem *)

Module subsystem_facts.
Import subsystem.
Local Open Scope go_scope.

Lemma fire_zero r : counter r = 0%Z -> counter (fire r) = 0%Z.
Proof. intros H. unfold fire. simpl. rewrite H. reflexivity. Qed.

Lemma fire_flag r : counter (fire r) = 0%Z -> delete (fire r) = true.
Proof. unfold fire. simpl. intros ->. reflexivity. Qed.

Lemma notifyOne_ok m itd l w r :
  heap w !! l = Some r ->
  notifyOne m itd l w =
    Ok (if (counter (fire r) =? 0)%Z then true else itd)
       {| this := this w; heap := <[l := fire r]> (heap w);
          goroutines := goroutines w ++ [GoCallback (callback r) (EventMessage.Data m)];
          output := output w; sync := sync w |}.
Proof.
  intros Hl. pose proof (lookup_lt_Some _ _ _ Hl) as Hlt.
  destruct w as [e h g o s]. simpl in *.
  unfold notifyOne, bind, load, setCounter, setDelete, go, ret, bind, load, fire.
  simpl. rewrite Hl.
  destruct (0 <? counter r)%Z eqn:Hpos; simpl.
  - destruct (counter r - 1 =? 0)%Z eqn:Hz;
      repeat (simpl; rewrite ?Hl, ?Hz, ?list_lookup_insert_eq by done);
      rewrite ?list_insert_insert_eq; reflexivity.
  - destruct (counter r =? 0)%Z eqn:Hz; repeat (simpl; rewrite ?Hl, ?Hz).
    + reflexivity.
    + rewrite (list_insert_id h l); [reflexivity|].
      destruct r; exact Hl.
Qed.

Lemma notifyOne_nil m itd l w :
  heap w !! l = None -> exists msg, notifyOne m itd l w = Panic msg.
Proof.
  intros Hl. unfold notifyOne, bind, load. rewrite Hl. eauto.
Qed.

(** *** Facts about [fired] *)

Lemma fired_cons l rest h : fired (l :: rest) h = fired rest (alter fire l h).
Proof. reflexivity. Qed.

Lemma fired_length snapshot : forall h, length (fired snapshot h) = length h.
Proof.
  induction snapshot as [|l rest IH]; intros h; [reflexivity|].
  rewrite fired_cons, IH. apply length_alter.
Qed.

Lemma fired_outside snapshot : forall h l,
  l ∉ snapshot -> fired snapshot h !! l = h !! l.
Proof.
  induction snapshot as [|a rest IH]; intros h l Hl; [reflexivity|].
  apply not_elem_of_cons in Hl as [Hne Hrest].
  rewrite fired_cons, IH by done. apply list_lookup_alter_ne. congruence.
Qed.

Lemma fired_once snapshot : forall h l,
  NoDup snapshot -> l ∈ snapshot -> fired snapshot h !! l = fire <$> h !! l.
Proof.
  induction snapshot as [|a rest IH]; intros h l Hnd Hl.
  - by apply elem_of_nil in Hl.
  - apply NoDup_cons in Hnd as [Ha Hnd]. rewrite fired_cons.
    destruct (decide (l = a)) as [->|Hne].
    + rewrite fired_outside by done. apply list_lookup_alter_eq.
    + apply elem_of_cons in Hl as [?|Hl]; [done|].
      rewrite IH by done. rewrite list_lookup_alter_ne by congruence. done.
Qed.

(** A counter that is zero stays zero. *)
Lemma fired_zero_stays snapshot : forall h l r,
  h !! l = Some r -> counter r = 0%Z ->
  exists r', fired snapshot h !! l = Some r' /\ counter r' = 0%Z.
Proof.
  induction snapshot as [|a rest IH]; intros h l r Hl Hz; [by eauto|].
  rewrite fired_cons. destruct (decide (a = l)) as [->|Hne].
  - apply (IH _ _ (fire r)); [|by apply fire_zero].
    by rewrite list_lookup_alter_eq, Hl.
  - apply (IH _ _ r); [|done]. by rewrite list_lookup_alter_ne.
Qed.

(** A listener of the snapshot that ends with counter zero ends flagged. *)
Lemma fired_zero_flagged snapshot : forall h l r',
  l ∈ snapshot -> fired snapshot h !! l = Some r' -> counter r' = 0%Z ->
  delete r' = true.
Proof.
  induction snapshot as [|a rest IH]; intros h l r' Hin Hl Hz.
  - by apply elem_of_nil in Hin.
  - rewrite fired_cons in Hl.
    destruct (decide (l ∈ rest)) as [Hrest|Hrest]; [by eapply IH|].
    apply elem_of_cons in Hin as [->|?]; [|done].
    rewrite fired_outside, list_lookup_alter_eq in Hl by done.
    destruct (h !! a) as [r|]; [|done]. simplify_eq/=. by apply fire_flag.
Qed.

(** [itemsToDelete] is set exactly when some listener of the snapshot
    ends with counter zero. *)
Lemma marks_true snapshot : forall h,
  marks snapshot h = true <->
  exists l r', l ∈ snapshot /\ fired snapshot h !! l = Some r' /\ counter r' = 0%Z.
Proof.
  induction snapshot as [|a rest IH]; intros h.
  - split; [done|]. intros (l & r' & Hin & _). by apply elem_of_nil in Hin.
  - rewrite fired_cons. cbn [marks]. split.
    + intros Hm. destruct (alter fire a h !! a) as [r|] eqn:Ha.
      * apply orb_true_iff in Hm as [Hz|Hm].
        -- apply Z.eqb_eq in Hz.
           destruct (fired_zero_stays rest _ _ _ Ha Hz) as (r' & Hr' & Hz').
           exists a, r'. split; [left|done].
        -- apply IH in Hm as (l & r' & Hin & Hr').
           exists l, r'. split; [by right|done].
      * apply IH in Hm as (l & r' & Hin & Hr').
        exists l, r'. split; [by right|done].
    + intros (l & r' & Hin & Hl & Hz).
      assert (marks rest (alter fire a h) = true \/ (l = a /\ l ∉ rest)) as [Hm|[-> Hout]].
      { destruct (decide (l ∈ rest)) as [Hrest|Hrest].
        - left. apply IH. eauto.
        - right. apply elem_of_cons in Hin as [->|?]; done. }
      * rewrite Hm. destruct (alter fire a h !! a); [apply orb_true_r|done].
      * rewrite fired_outside in Hl by done. rewrite Hl.
        apply orb_true_iff. left. by apply Z.eqb_eq.
Qed.

(** *** The two loops *)

Lemma allocated_alter snapshot (h : list eventListener) f (l : loc) :
  allocated h snapshot -> allocated (alter f l h) snapshot.
Proof. unfold allocated. by rewrite length_alter. Qed.

Lemma insert_fire (h : list eventListener) (l : loc) r : h !! l = Some r -> <[l := fire r]> h = alter fire l h.
Proof.
  intros Hl. apply list_eq. intros i.
  destruct (decide (l = i)) as [->|Hne].
  - rewrite list_lookup_alter_eq, Hl.
    apply list_lookup_insert_eq. by eapply lookup_lt_Some.
  - by rewrite list_lookup_insert_ne, list_lookup_alter_ne.
Qed.

Lemma first_loop m snapshot : forall itd w,
  allocated (heap w) snapshot ->
  forRange snapshot (notifyOne m) itd w =
    Ok (itd || marks snapshot (heap w))
       {| this := this w; heap := fired snapshot (heap w);
          goroutines := goroutines w ++ launches m (heap w) snapshot;
          output := output w; sync := sync w |}.
Proof.
  induction snapshot as [|l rest IH]; intros itd w Hall.
  - cbn. rewrite orb_false_r, app_nil_r. by destruct w.
  - apply Forall_cons in Hall as [Hl Hall].
    destruct (lookup_lt_is_Some_2 _ _ Hl) as [r Hr].
    cbn [forRange]. unfold bind at 1. rewrite (notifyOne_ok _ _ _ _ _ Hr).
    rewrite IH; cbn [heap this goroutines output sync];
      rewrite (insert_fire _ _ _ Hr); [|by apply allocated_alter].
    cbn [marks]. rewrite list_lookup_alter_eq, Hr. cbn [fmap option_fmap option_map].
    rewrite fired_cons. unfold launches. cbn [map].
    rewrite <- app_assoc. cbn [app].
    f_equal.
    + destruct (counter (fire r) =? 0)%Z; [by rewrite orb_true_r|done].
    + f_equal. f_equal. f_equal.
      * unfold callbackAt. by rewrite Hr.
      * apply map_ext. intros l'. f_equal. unfold callbackAt.
        destruct (decide (l = l')) as [->|Hne].
        -- rewrite list_lookup_alter_eq. by destruct (heap w !! l').
        -- by rewrite list_lookup_alter_ne.
Qed.

Lemma keepOne_ok acc l w r :
  heap w !! l = Some r ->
  keepOne acc l w = Ok (if decide (kept (heap w) l) then acc ++ [l] else acc) w.
Proof.
  intros Hr. unfold keepOne, bind, load. rewrite Hr.
  destruct (decide (kept (heap w) l)) as [Hk|Hk]; unfold kept in Hk;
    rewrite Hr in Hk; cbn in Hk; destruct (delete r); cbn; done.
Qed.

Lemma second_loop snapshot : forall acc w,
  allocated (heap w) snapshot ->
  forRange snapshot keepOne acc w = Ok (acc ++ filter (kept (heap w)) snapshot) w.
Proof.
  induction snapshot as [|l rest IH]; intros acc w Hall.
  - cbn. by rewrite app_nil_r.
  - apply Forall_cons in Hall as [Hl Hall].
    destruct (lookup_lt_is_Some_2 _ _ Hl) as [r Hr].
    cbn [forRange]. unfold bind at 1. rewrite (keepOne_ok _ _ _ _ Hr).
    rewrite IH by done. rewrite filter_cons.
    destruct (decide (kept (heap w) l)); [by rewrite <- app_assoc|done].
Qed.

Lemma notifyLocked_ok eventName m snapshot w :
  allocated (heap w) snapshot ->
  notifyLocked eventName m snapshot w = Ok tt (afterNotify eventName m snapshot w).
Proof.
  intros Hall. unfold notifyLocked, afterNotify.
  unfold bind at 1. cbn [Lock].
  unfold bind at 1. rewrite first_loop by exact Hall.
  cbn [orb with_sync heap this goroutines output sync].
  destruct (marks snapshot (heap w)) eqn:Hm.
  - unfold bind at 1. unfold bind at 1.
    rewrite second_loop
      by (cbn [heap]; unfold allocated; by rewrite fired_length).
    unfold mapWrite, Unlock, with_sync, with_listeners.
    cbn [heap this goroutines output sync app].
    by rewrite <- !app_assoc.
  - unfold bind, ret, Unlock, with_sync.
    cbn [heap this goroutines output sync app].
    rewrite <- !app_assoc. by destruct w as [[]].
Qed.

(** A pointer of the snapshot that cannot be dereferenced makes the
    first loop panic. *)
Lemma first_loop_nil m snapshot : forall itd w,
  ~ allocated (heap w) snapshot ->
  exists msg, forRange snapshot (notifyOne m) itd w = Panic msg.
Proof.
  induction snapshot as [|l rest IH]; intros itd w Hall.
  - destruct Hall. constructor.
  - cbn [forRange]. unfold bind at 1.
    destruct (heap w !! l) as [r|] eqn:Hr.
    + rewrite (notifyOne_ok _ _ _ _ _ Hr). apply IH. cbn [heap].
      intros Hrest. apply Hall. constructor; [by eapply lookup_lt_Some|].
      unfold allocated in *. by rewrite length_insert in Hrest.
    + destruct (notifyOne_nil m itd l w Hr) as [msg ->]. eauto.
Qed.

Lemma notifyListeners_unfold eventName m w :
  notifyListeners eventName m w =
    match listeners (this w) !! eventName with
    | None => write (Println ("no listeners for " +:+ eventName))
                (with_sync (SMapRead eventName) w)
    | Some snapshot =>
        notifyLocked eventName m snapshot (with_sync (SMapRead eventName) w)
    end.
Proof.
  unfold notifyListeners, bind, mapRead.
  by destruct (listeners (this w) !! eventName).
Qed.

(** With every pointer of the snapshot allocated the call returns, and
    this is the world it returns in. *)
Lemma notifyListeners_ok eventName m w snapshot :
  listeners (this w) !! eventName = Some snapshot ->
  allocated (heap w) snapshot ->
  notifyListeners eventName m w =
    Ok tt (afterNotify eventName m snapshot (with_sync (SMapRead eventName) w)).
Proof.
  intros Hs Hall. rewrite notifyListeners_unfold, Hs.
  by apply notifyLocked_ok.
Qed.

(** Whenever the call returns, its snapshot was allocated. *)
Lemma notifyListeners_inv eventName m w w' snapshot :
  listeners (this w) !! eventName = Some snapshot ->
  notifyListeners eventName m w = Ok tt w' ->
  allocated (heap w) snapshot /\
  w' = afterNotify eventName m snapshot (with_sync (SMapRead eventName) w).
Proof.
  intros Hs Hrun.
  destruct (decide (allocated (heap w) snapshot)) as [Hall|Hall].
  - rewrite (notifyListeners_ok _ _ _ _ Hs Hall) in Hrun. by simplify_eq.
  - rewrite notifyListeners_unfold, Hs in Hrun.
    unfold notifyLocked in Hrun. unfold bind at 1 in Hrun. cbn [Lock] in Hrun.
    unfold bind at 1 in Hrun.
    destruct (first_loop_nil m snapshot false
                (with_sync SLock (with_sync (SMapRead eventName) w)) Hall)
      as [msg Hp].
    by rewrite Hp in Hrun.
Qed.

(** *** RegisterListener *)

Lemma RegisterListener_ok eventName cb w :
  RegisterListener eventName cb w = Ok tt (afterRegister eventName cb w).
Proof.
  unfold RegisterListener, afterRegister, bind, new, Lock, mapRead, mapWrite,
    Unlock, with_sync, with_listeners, with_heap.
  cbn [heap this goroutines output sync listeners quitChannel eventChannel
       running logger].
  by rewrite <- !app_assoc.
Qed.

(** ** Well-formed worlds *)

Lemma wf_boot e : listeners e = ∅ -> wf (boot e).
Proof.
  intros He. split; cbn; rewrite He.
  - intros k s Hk. by rewrite lookup_empty in Hk.
  - intros k s Hk. by rewrite lookup_empty in Hk.
  - intros k1 k2 s1 s2 l _ Hk. by rewrite lookup_empty in Hk.
Qed.

Lemma append_elem (cur : option (list loc)) (l l' : loc) :
  l' ∈ append cur l <-> l' = l \/ exists s, cur = Some s /\ l' ∈ s.
Proof.
  destruct cur as [s|]; cbn.
  - rewrite elem_of_app, list_elem_of_singleton. split.
    + intros [?|?]; [right; eauto|by left].
    + intros [?|(s' & ? & ?)]; [by right|left; congruence].
  - rewrite list_elem_of_singleton. split; [by left|].
    by intros [?|(s' & ? & ?)].
Qed.

Lemma allocated_lt h s (l : loc) : allocated h s -> l ∈ s -> l < length h.
Proof. unfold allocated. rewrite Forall_forall. auto. Qed.

Lemma wf_RegisterListener eventName cb w :
  wf w -> wf (afterRegister eventName cb w).
Proof.
  intros [Hal Hnd Hap].
  assert (Hfresh : forall k s, listeners (this w) !! k = Some s -> length (heap w) ∉ s).
  { intros k s Hk Hin. pose proof (allocated_lt _ _ _ (Hal _ _ Hk) Hin). lia. }
  split; cbn [afterRegister this heap listeners].
  - intros k s Hk. unfold allocated. rewrite length_app. cbn [length].
    apply Forall_forall. intros l Hl.
    destruct (decide (eventName = k)) as [->|Hne].
    + rewrite lookup_insert_eq in Hk. simplify_eq.
      apply append_elem in Hl as [->|(s & Hs & Hl)]; [lia|].
      pose proof (allocated_lt _ _ _ (Hal _ _ Hs) Hl). lia.
    + rewrite lookup_insert_ne in Hk by done.
      pose proof (allocated_lt _ _ _ (Hal _ _ Hk) Hl). lia.
  - intros k s Hk. destruct (decide (eventName = k)) as [->|Hne].
    + rewrite lookup_insert_eq in Hk. simplify_eq.
      destruct (listeners (this w) !! k) as [s|] eqn:Hs; cbn.
      * apply NoDup_app. split; [by eapply Hnd|]. split; [|apply NoDup_singleton].
        intros l Hl ->%list_elem_of_singleton. by eapply Hfresh.
      * apply NoDup_singleton.
    + rewrite lookup_insert_ne in Hk by done. by eapply Hnd.
  - intros k1 k2 s1 s2 l Hne H1 H2 Hl1 Hl2.
    destruct (decide (eventName = k1)) as [->|Hne1].
    + rewrite lookup_insert_eq in H1. rewrite lookup_insert_ne in H2 by done.
      simplify_eq.
      apply append_elem in Hl1 as [->|(s & Hs & Hl1)]; [by eapply Hfresh|].
      by eapply (Hap k1 k2).
    + rewrite lookup_insert_ne in H1 by done.
      destruct (decide (eventName = k2)) as [->|Hne2].
      * rewrite lookup_insert_eq in H2. simplify_eq.
        apply append_elem in Hl2 as [->|(s & Hs & Hl2)]; [by eapply Hfresh|].
        by eapply (Hap k1 k2).
      * rewrite lookup_insert_ne in H2 by done. by eapply (Hap k1 k2).
Qed.

Lemma wf_afterNotify eventName m snapshot w o :
  listeners (this w) !! eventName = Some snapshot ->
  wf w -> wf (afterNotify eventName m snapshot (with_sync o w)).
Proof.
  intros Hs [Hal Hnd Hap].
  assert (Hsub : forall k s,
    listeners (this (afterNotify eventName m snapshot (with_sync o w))) !! k = Some s ->
    exists s0, listeners (this w) !! k = Some s0 /\ NoDup s /\ s ⊆ s0).
  { intros k s. cbn [afterNotify this listeners with_sync heap].
    destruct (marks snapshot (heap w)).
    - destruct (decide (eventName = k)) as [->|Hne].
      + rewrite lookup_insert_eq. intros ?; simplify_eq.
        exists snapshot. split; [done|]. split.
        * apply NoDup_filter. by eapply Hnd.
        * intros l Hl. by apply list_elem_of_filter in Hl as [_ ?].
      + rewrite lookup_insert_ne by done. intros Hk.
        exists s. split; [done|]. split; [by eapply Hnd|done].
    - intros Hk. exists s. split; [done|]. split; [by eapply Hnd|done]. }
  split.
  - intros k s Hk. destruct (Hsub _ _ Hk) as (s0 & H0 & _ & Hin).
    cbn [afterNotify heap with_sync]. unfold allocated.
    rewrite fired_length. apply Forall_forall. intros l Hl.
    eapply allocated_lt; [by eapply Hal|]. by apply Hin.
  - intros k s Hk. by destruct (Hsub _ _ Hk) as (s0 & _ & ? & _).
  - intros k1 k2 s1 s2 l Hne H1 H2 Hl1 Hl2.
    destruct (Hsub _ _ H1) as (t1 & Ht1 & _ & Hin1).
    destruct (Hsub _ _ H2) as (t2 & Ht2 & _ & Hin2).
    eapply (Hap k1 k2); eauto.
Qed.

Lemma wf_notifyListeners eventName m w w' :
  wf w -> notifyListeners eventName m w = Ok tt w' -> wf w'.
Proof.
  intros Hwf Hrun.
  destruct (listeners (this w) !! eventName) as [snapshot|] eqn:Hs.
  - destruct (notifyListeners_inv _ _ _ _ _ Hs Hrun) as [_ ->].
    by apply wf_afterNotify.
  - rewrite notifyListeners_unfold, Hs in Hrun. cbv [write] in Hrun.
    simplify_eq. destruct Hwf as [Hal Hnd Hap]. by split.
Qed.

Lemma reachable_wf w : reachable w -> wf w.
Proof.
  induction 1 as [e He|w w' x cb _ IH Hrun|w w' x m _ IH Hrun].
  - by apply wf_boot.
  - rewrite RegisterListener_ok in Hrun. simplify_eq. by apply wf_RegisterListener.
  - by eapply wf_notifyListeners.
Qed.

(** ** Notification *)

(** A listener of the snapshot whose counter is zero when the first loop
    ends makes the second loop run, and the second loop drops it. *)
Lemma zero_dropped snapshot h (l : loc) r' :
  l ∈ snapshot -> fired snapshot h !! l = Some r' -> counter r' = 0%Z ->
  marks snapshot h = true /\ l ∉ filter (kept (fired snapshot h)) snapshot.
Proof.
  intros Hin Hl Hz. split.
  - apply marks_true. eauto.
  - intros [Hk _]%list_elem_of_filter. unfold kept in Hk. rewrite Hl in Hk.
    cbn in Hk. pose proof (fired_zero_flagged _ _ _ _ Hin Hl Hz). congruence.
Qed.

Lemma this_eta (e : Event) :
  {| quitChannel := quitChannel e; eventChannel := eventChannel e;
     running := running e; listeners := listeners e; logger := logger e |} = e.
Proof. by destruct e. Qed.

(** An event name without a map entry: only the diagnostic line is
    written. *)
Lemma notifyListeners_absent eventName m w :
  listeners (this w) !! eventName = None ->
  notifyListeners eventName m w =
    Ok tt {| this := this w; heap := heap w; goroutines := goroutines w;
             output := output w ++ [Println ("no listeners for " +:+ eventName)];
             sync := sync w ++ [SMapRead eventName] |}.
Proof. intros Hs. rewrite notifyListeners_unfold, Hs. reflexivity. Qed.

(** C6: notifying an event name that has no map entry, or whose sequence
    is empty, returns without a panic, starts no callback and leaves the
    whole registry as it was (map, records, and the rest of the [Event]
    value). *)
Theorem notify_without_listeners (w : World) (eventName : string) (m : EventMessage.t) :
  listeners (this w) !! eventName = None \/
  listeners (this w) !! eventName = Some [] ->
  exists w',
    notifyListeners eventName m w = Ok tt w' /\
    this w' = this w /\
    listeners (this w') = listeners (this w) /\
    heap w' = heap w /\
    goroutines w' = goroutines w.
Proof.
  intros [Hs|Hs].
  - rewrite (notifyListeners_absent _ _ _ Hs). eexists. split; [reflexivity|]. done.
  - rewrite (notifyListeners_ok _ _ _ _ Hs) by constructor.
    eexists. split; [reflexivity|]. cbn. rewrite app_nil_r, this_eta. done.
Qed.

Lemma notify_without_listeners_witness :
  let w := afterRegister "x" 7 (boot (mkEvent 0 1 true ∅ "Event Subsystem")) in
  exists w',
    notifyListeners "unknown-event" (EventMessage.mk "unknown-event" [IInt 1]) w
      = Ok tt w' /\
    this w' = this w /\
    listeners (this w') = listeners (this w) /\
    heap w' = heap w /\
    goroutines w' = goroutines w.
Proof.
  intros w.
  apply (notify_without_listeners w "unknown-event"
           (EventMessage.mk "unknown-event" [IInt 1])).
  left. vm_compute. reflexivity.
Defined.

(** C5: a listener of the snapshot whose positive counter is zero when
    the call returns is not in the sequence the call leaves for the event
    name; that sequence is the one rebuilt from the snapshot, holding
    exactly its records that are not flagged for deletion, in order. *)
Theorem expired_listener_removed (w : World) (eventName : string)
    (m : EventMessage.t) (snapshot : list loc) (l : loc) (r : eventListener) :
  listeners (this w) !! eventName = Some snapshot ->
  allocated (heap w) snapshot ->
  l ∈ snapshot ->
  heap w !! l = Some r ->
  (0 < counter r)%Z ->
  exists w',
    notifyListeners eventName m w = Ok tt w' /\
    forall r', heap w' !! l = Some r' -> counter r' = 0%Z ->
      (l ∉ sequence w' eventName) /\
      listeners (this w') !! eventName = Some (filter (kept (heap w')) snapshot) /\
      forall l', l' ∈ sequence w' eventName <->
                 l' ∈ snapshot /\ (delete <$> heap w' !! l') = Some false.
Proof.
  intros Hs Hall Hin Hr Hpos.
  rewrite (notifyListeners_ok _ _ _ _ Hs Hall).
  eexists. split; [reflexivity|].
  cbn [afterNotify with_sync heap this listeners].
  intros r' Hr' Hz.
  destruct (zero_dropped _ _ _ _ Hin Hr' Hz) as [Hm Hout].
  unfold sequence. cbn [afterNotify with_sync heap this listeners].
  rewrite Hm. rewrite !lookup_insert_eq. cbn [default].
  split; [done|]. split; [done|].
  intros l'. cbn [id]. rewrite list_elem_of_filter. unfold kept. tauto.
Qed.

Lemma expired_listener_removed_witness :
  let w := {| this := mkEvent 0 1 true {[ "x" := [0; 1]%nat ]} "Event Subsystem";
              heap := [mkListener 7 1 false; mkListener 8 2 false];
              goroutines := []; output := []; sync := [] |} in
  exists w',
    notifyListeners "x" (EventMessage.mk "x" [IInt 1]) w = Ok tt w' /\
    heap w' = [mkListener 7 0 true; mkListener 8 1 false] /\
    (0%nat ∉ sequence w' "x") /\
    listeners (this w') !! "x" = Some (filter (kept (heap w')) [0; 1]%nat).
Proof.
  intros w.
  destruct (expired_listener_removed w "x" (EventMessage.mk "x" [IInt 1])
              [0; 1]%nat 0%nat (mkListener 7 1 false))
    as (w' & Hrun & Hgone).
  - vm_compute. reflexivity.
  - repeat constructor.
  - left.
  - reflexivity.
  - reflexivity.
  - exists w'. split; [exact Hrun|].
    assert (Hheap : heap w' = [mkListener 7 0 true; mkListener 8 1 false]).
    { vm_compute in Hrun. by simplify_eq. }
    split; [exact Hheap|].
    destruct (Hgone (mkListener 7 0 true)) as (Hout & Hseq & _).
    + by rewrite Hheap.
    + reflexivity.
    + by split.
Defined.

Lemma launches_app m h s1 s2 :
  launches m h (s1 ++ s2) = launches m h s1 ++ launches m h s2.
Proof. apply map_app. Qed.

Lemma launches_grow m h r snapshot :
  allocated h snapshot -> launches m (h ++ [r]) snapshot = launches m h snapshot.
Proof.
  intros Hall. unfold launches. apply map_ext_in. intros l Hl%list_elem_of_In.
  unfold callbackAt. rewrite lookup_app_l; [done|]. by eapply allocated_lt.
Qed.

Lemma allocated_grow h r snapshot :
  allocated h snapshot -> allocated (h ++ [r]) (snapshot ++ [length h]).
Proof.
  intros Hall. unfold allocated in *. rewrite length_app. cbn [length].
  apply Forall_app. split.
  - eapply Forall_impl; [exact Hall|]. cbn. intros; lia.
  - constructor; [lia|constructor].
Qed.

Lemma sequence_allocated w eventName :
  wf w -> allocated (heap w) (sequence w eventName).
Proof.
  intros Hwf. unfold sequence.
  destruct (listeners (this w) !! eventName) as [s|] eqn:Hs; cbn.
  - by eapply wf_allocated.
  - constructor.
Qed.

Lemma sequence_nodup w eventName : wf w -> NoDup (sequence w eventName).
Proof.
  intros Hwf. unfold sequence.
  destruct (listeners (this w) !! eventName) as [s|] eqn:Hs; cbn.
  - by eapply wf_nodup.
  - constructor.
Qed.

(** What a returning call does, in terms of the sequence it found. *)
Lemma notifyListeners_effect eventName m w :
  allocated (heap w) (sequence w eventName) ->
  exists w',
    notifyListeners eventName m w = Ok tt w' /\
    heap w' = fired (sequence w eventName) (heap w) /\
    goroutines w' = goroutines w ++ launches m (heap w) (sequence w eventName).
Proof.
  unfold sequence.
  destruct (listeners (this w) !! eventName) as [s|] eqn:Hs;
    cbn [default from_option id]; intros Hall.
  - rewrite (notifyListeners_ok _ _ _ _ Hs Hall). eexists. split; [reflexivity|]. done.
  - rewrite (notifyListeners_absent _ _ _ Hs). eexists. split; [reflexivity|].
    cbn. by rewrite app_nil_r.
Qed.

(** In a reachable world the sequence of any event name meets what the
    theorems on notification ask of it. *)
Lemma reachable_sequence w eventName :
  reachable w ->
  allocated (heap w) (sequence w eventName) /\ NoDup (sequence w eventName).
Proof.
  intros Hw%reachable_wf. split; [by apply sequence_allocated|by apply sequence_nodup].
Qed.



(** C4: one call starts one goroutine per record of the sequence it
    finds, in order, each with the record's callback and the message's
    data; a record's counter goes down by one when it was positive and
    stays as it was otherwise, and records outside the sequence are not
    touched.  After [RegisterListener eventName cb] the next call starts
    the goroutines of the records already there and then exactly one for
    [cb].  The sequence lists no pointer twice, as in every world the
    subsystem reaches. *)
Theorem notify_fires_each_listener_once (w : World) (eventName : string)
    (m : EventMessage.t) :
  allocated (heap w) (sequence w eventName) ->
  NoDup (sequence w eventName) ->
  (exists w',
     notifyListeners eventName m w = Ok tt w' /\
     goroutines w' =
       goroutines w ++
       map (fun l => GoCallback (callbackAt (heap w) l) (EventMessage.Data m))
           (sequence w eventName) /\
     (forall l r, l ∈ sequence w eventName -> heap w !! l = Some r ->
        exists r', heap w' !! l = Some r' /\
                   callback r' = callback r /\
                   counter r' = if (0 <? counter r)%Z
                                then (counter r - 1)%Z else counter r) /\
     (forall l, l ∉ sequence w eventName -> heap w' !! l = heap w !! l)) /\
  (forall cb, exists w1 w2,
     RegisterListener eventName cb w = Ok tt w1 /\
     notifyListeners eventName m w1 = Ok tt w2 /\
     goroutines w2 =
       goroutines w ++
       map (fun l => GoCallback (callbackAt (heap w) l) (EventMessage.Data m))
           (sequence w eventName) ++
       [GoCallback cb (EventMessage.Data m)]).
Proof.
  intros Hall Hnd. split.
  - destruct (notifyListeners_effect eventName m w Hall) as (w' & Hrun & Hheap & Hgo).
    exists w'. split; [exact Hrun|]. split; [exact Hgo|]. split.
    + intros l r Hin Hr. exists (fire r). rewrite Hheap.
      rewrite fired_once, Hr by done. done.
    + intros l Hout. rewrite Hheap. by apply fired_outside.
  - intros cb. rewrite RegisterListener_ok. eexists. eexists.
    split; [reflexivity|].
    set (w1 := afterRegister eventName cb w).
    assert (Hs1 : listeners (this w1) !! eventName
                  = Some (sequence w eventName ++ [length (heap w)])).
    { cbn. rewrite lookup_insert_eq. unfold sequence.
      by destruct (listeners (this w) !! eventName). }
    rewrite (notifyListeners_ok _ _ _ _ Hs1) by (by apply allocated_grow).
    split; [reflexivity|].
    cbn [afterNotify with_sync goroutines heap w1 afterRegister].
    rewrite launches_app, launches_grow by done.
    f_equal. f_equal. unfold launches, callbackAt. cbn [map].
    by rewrite lookup_app_r, Nat.sub_diag.
Qed.

Lemma notify_fires_each_listener_once_witness :
  let w := {| this := mkEvent 0 1 true {[ "x" := [0; 1]%nat ]} "Event Subsystem";
              heap := [mkListener 7 3 false; mkListener 8 0 false];
              goroutines := []; output := []; sync := [] |} in
  let m := EventMessage.mk "x" [IInt 1; IInt 2; IInt 3] in
  exists w',
    notifyListeners "x" m w = Ok tt w' /\
    goroutines w' = [GoCallback 7 [IInt 1; IInt 2; IInt 3];
                     GoCallback 8 [IInt 1; IInt 2; IInt 3]] /\
    (exists r', heap w' !! 0%nat = Some r' /\ callback r' = 7%nat /\ counter r' = 2%Z) /\
    (exists r', heap w' !! 1%nat = Some r' /\ callback r' = 8%nat /\ counter r' = 0%Z).
Proof.
  intros w m.
  destruct (notify_fires_each_listener_once w "x" m) as [(w' & Hrun & Hgo & Hcnt & _) _].
  - vm_compute. repeat constructor.
  - apply (bool_decide_unpack _). vm_compute. exact I.
  - exists w'. split; [exact Hrun|]. split; [exact Hgo|]. split.
    + apply (Hcnt 0%nat (mkListener 7 3 false)); [vm_compute; left|reflexivity].
    + apply (Hcnt 1%nat (mkListener 8 0 false)); [vm_compute; right; left|reflexivity].
Defined.

(** ** Other event names *)

(** The map entry of another event name is the same after either
    operation, whatever the world. *)
Lemma other_entry_kept w x y cb m w2 :
  x <> y ->
  listeners (this (afterRegister x cb w)) !! y = listeners (this w) !! y /\
  (notifyListeners x m w = Ok tt w2 ->
   listeners (this w2) !! y = listeners (this w) !! y).
Proof.
  intros Hne. split.
  - cbn. by rewrite lookup_insert_ne.
  - intros Hrun. destruct (listeners (this w) !! x) as [s|] eqn:Hs.
    + destruct (notifyListeners_inv _ _ _ _ _ Hs Hrun) as [_ ->].
      cbn. destruct (marks s (heap w)); [by rewrite lookup_insert_ne|done].
    + rewrite (notifyListeners_absent _ _ _ Hs) in Hrun. by simplify_eq.
Qed.

(** C10: for distinct event names [x] and [y], [RegisterListener x cb]
    and [notifyListeners x m] both return and leave the sequence for [y]
    as it was: the same pointers, and behind them the same records.
    Registration stores under [x] only, and so does the cleanup. *)
Theorem other_names_untouched (w : World) (x y : string) (cb : Callback)
    (m : EventMessage.t) :
  x <> y ->
  wf w ->
  (exists w1,
     RegisterListener x cb w = Ok tt w1 /\
     listeners (this w1) !! y = listeners (this w) !! y /\
     forall l, l ∈ sequence w y -> heap w1 !! l = heap w !! l) /\
  (exists w2,
     notifyListeners x m w = Ok tt w2 /\
     listeners (this w2) !! y = listeners (this w) !! y /\
     forall l, l ∈ sequence w y -> heap w2 !! l = heap w !! l).
Proof.
  intros Hne Hwf. split.
  - rewrite RegisterListener_ok. eexists. split; [reflexivity|]. split.
    + by apply (other_entry_kept w x y cb m w).
    + intros l Hl. cbn. apply lookup_app_l.
      eapply allocated_lt; [by apply sequence_allocated|done].
  - destruct (notifyListeners_effect x m w (sequence_allocated w x Hwf))
      as (w2 & Hrun & Hheap & _).
    exists w2. split; [exact Hrun|]. split.
    + by apply (other_entry_kept w x y cb m w2).
    + intros l Hl. rewrite Hheap. apply fired_outside.
      unfold sequence in *.
      destruct (listeners (this w) !! y) as [sy|] eqn:Hy; [|by apply elem_of_nil in Hl].
      destruct (listeners (this w) !! x) as [sx|] eqn:Hx; [|apply not_elem_of_nil].
      cbn in *. by eapply (wf_apart w Hwf y x).
Qed.

Lemma other_names_untouched_witness :
  let w := afterRegister "y" 8 (afterRegister "x" 7
             (boot (mkEvent 0 1 true ∅ "Event Subsystem"))) in
  (exists w1,
     RegisterListener "x" 9 w = Ok tt w1 /\
     listeners (this w1) !! "y" = listeners (this w) !! "y" /\
     forall l, l ∈ sequence w "y" -> heap w1 !! l = heap w !! l) /\
  (exists w2,
     notifyListeners "x" (EventMessage.mk "x" []) w = Ok tt w2 /\
     listeners (this w2) !! "y" = listeners (this w) !! "y" /\
     forall l, l ∈ sequence w "y" -> heap w2 !! l = heap w !! l).
Proof.
  intros w.
  apply (other_names_untouched w "x" "y" 9 (EventMessage.mk "x" [])).
  - discriminate.
  - apply wf_RegisterListener, wf_RegisterListener, wf_boot. reflexivity.
Defined.

(** ** Listeners registered through RegisterListener *)

(** A listener of the snapshot whose counter is zero when the call starts
    is dropped by that call. *)
Lemma zero_counter_dropped w eventName m snapshot (l : loc) r :
  listeners (this w) !! eventName = Some snapshot ->
  allocated (heap w) snapshot ->
  l ∈ snapshot ->
  heap w !! l = Some r ->
  counter r = 0%Z ->
  exists w', notifyListeners eventName m w = Ok tt w' /\ l ∉ sequence w' eventName.
Proof.
  intros Hs Hall Hin Hr Hz.
  rewrite (notifyListeners_ok _ _ _ _ Hs Hall). eexists. split; [reflexivity|].
  destruct (fired_zero_stays snapshot _ _ _ Hr Hz) as (r' & Hr' & Hz').
  destruct (zero_dropped _ _ _ _ Hin Hr' Hz') as [Hm Hout].
  unfold sequence. cbn [afterNotify with_sync heap this listeners].
  by rewrite Hm, lookup_insert_eq.
Qed.


(** A listener whose counter is negative is kept by every call, so [-1]
    would do for a listener that never expires. *)
Lemma negative_counter_kept w eventName m snapshot (l : loc) r :
  listeners (this w) !! eventName = Some snapshot ->
  allocated (heap w) snapshot ->
  NoDup snapshot ->
  l ∈ snapshot ->
  heap w !! l = Some r ->
  (counter r < 0)%Z ->
  delete r = false ->
  exists w', notifyListeners eventName m w = Ok tt w' /\
             l ∈ sequence w' eventName /\ heap w' !! l = Some r.
Proof.
  intros Hs Hall Hnd Hin Hr Hneg Hdel.
  rewrite (notifyListeners_ok _ _ _ _ Hs Hall). eexists. split; [reflexivity|].
  assert (Hfire : fire r = r).
  { unfold fire. destruct r as [c n d]. cbn in *.
    destruct (0 <? n)%Z eqn:H1; [apply Z.ltb_lt in H1; lia|].
    destruct (n =? 0)%Z eqn:H2; [apply Z.eqb_eq in H2; lia|done]. }
  assert (Hl : fired snapshot (heap w) !! l = Some r).
  { rewrite fired_once, Hr by done. cbn. by rewrite Hfire. }
  split; [|exact Hl].
  unfold sequence. cbn [afterNotify with_sync heap this listeners].
  destruct (marks snapshot (heap w)).
  - rewrite lookup_insert_eq. cbn. apply list_elem_of_filter. split; [|done].
    unfold kept. rewrite Hl. cbn. by rewrite Hdel.
  - rewrite Hs. done.
Qed.

(** C1, as the code has it: a listener registered with [RegisterListener]
    has counter 0, the first notification of its event name starts its
    callback and drops it from the sequence, and the second notification
    starts nothing. *)
Theorem registered_listener_dropped_after_first_notify
    (q c : Channel) (lg eventName : string) (cb : Callback) (m : EventMessage.t) :
  let w0 := boot (mkEvent q c true ∅ lg) in
  exists w1 w2 w3,
    RegisterListener eventName cb w0 = Ok tt w1 /\
    heap w1 = [mkListener cb 0 false] /\
    sequence w1 eventName = [0%nat] /\
    notifyListeners eventName m w1 = Ok tt w2 /\
    goroutines w2 = [GoCallback cb (EventMessage.Data m)] /\
    heap w2 = [mkListener cb 0 true] /\
    listeners (this w2) !! eventName = Some [] /\
    notifyListeners eventName m w2 = Ok tt w3 /\
    goroutines w3 = goroutines w2.
Proof.
  intros w0. rewrite RegisterListener_ok.
  set (w1 := afterRegister eventName cb w0).
  assert (Hs1 : listeners (this w1) !! eventName = Some [0%nat]).
  { cbn. by rewrite lookup_insert_eq, lookup_empty. }
  assert (Hrun1 := notifyListeners_ok eventName m w1 [0%nat] Hs1).
  set (w2 := afterNotify eventName m [0%nat] (with_sync (SMapRead eventName) w1)) in *.
  assert (Hs2 : listeners (this w2) !! eventName = Some []).
  { cbn. by rewrite lookup_insert_eq. }
  assert (Hrun2 := notifyListeners_ok eventName m w2 [] Hs2).
  exists w1, w2, (afterNotify eventName m [] (with_sync (SMapRead eventName) w2)).
  split; [reflexivity|]. split; [reflexivity|].
  split; [unfold sequence; by rewrite Hs1|].
  split; [apply Hrun1; repeat constructor|].
  split; [reflexivity|]. split; [reflexivity|]. split; [exact Hs2|].
  split; [apply Hrun2; constructor|].
  reflexivity.
Qed.

(** ** The lock *)

(** [RegisterListener] reads and writes the map under the lock. *)
Lemma RegisterListener_guarded eventName cb w :
  exists w' t,
    RegisterListener eventName cb w = Ok tt w' /\
    sync w' = sync w ++ t /\ guarded false t = true.
Proof.
  rewrite RegisterListener_ok. eexists. eexists.
  split; [reflexivity|]. split; reflexivity.
Qed.

(** [notifyListeners] starts with a read of the map, before the lock is
    taken; everything after that read is under the lock. *)
Lemma notifyListeners_trace eventName m w w' :
  notifyListeners eventName m w = Ok tt w' ->
  exists t, sync w' = sync w ++ SMapRead eventName :: t /\
            guarded false (SMapRead eventName :: t) = false /\
            guarded false t = true.
Proof.
  intros Hrun. destruct (listeners (this w) !! eventName) as [s|] eqn:Hs.
  - destruct (notifyListeners_inv _ _ _ _ _ Hs Hrun) as [_ ->].
    cbn [afterNotify with_sync sync]. rewrite <- app_assoc. eexists.
    split; [reflexivity|]. split; [reflexivity|].
    by destruct (marks s _).
  - rewrite (notifyListeners_absent _ _ _ Hs) in Hrun. simplify_eq.
    exists []. done.
Qed.

(** C3, as the code has it: in a call that finds a listener, the map is
    read first and the lock taken second, so the trace of the call is not
    guarded, while the trace of [RegisterListener] is. *)
Theorem notifyListeners_reads_map_before_lock
    (q c : Channel) (lg eventName : string) (cb : Callback) (m : EventMessage.t) :
  let w1 := afterRegister eventName cb (boot (mkEvent q c true ∅ lg)) in
  exists w2,
    notifyListeners eventName m w1 = Ok tt w2 /\
    sync w2 = sync w1 ++ [SMapRead eventName; SLock; SMapWrite eventName; SUnlock] /\
    guarded false [SMapRead eventName; SLock; SMapWrite eventName; SUnlock] = false /\
    sync w1 = [SLock; SMapRead eventName; SMapWrite eventName; SUnlock] /\
    guarded false (sync w1) = true.
Proof.
  intros w1.
  assert (Hs1 : listeners (this w1) !! eventName = Some [0%nat]).
  { cbn. by rewrite lookup_insert_eq, lookup_empty. }
  rewrite (notifyListeners_ok eventName m w1 [0%nat] Hs1) by (repeat constructor).
  eexists. split; [reflexivity|]. split; [reflexivity|]. done.
Qed.

(** What the early read costs: a registration that falls between the
    read of the map and the taking of the lock is overwritten by the
    cleanup, which stores a sequence rebuilt from the stale snapshot. *)
Lemma registration_lost_after_stale_read
    (q c : Channel) (lg eventName : string) (cb cb' : Callback) (m : EventMessage.t) :
  let w1 := afterRegister eventName cb (boot (mkEvent q c true ∅ lg)) in
  exists snapshot wa wb wc,
    mapRead eventName w1 = Ok (Some snapshot) wa /\
    RegisterListener eventName cb' wa = Ok tt wb /\
    sequence wb eventName = [0; 1]%nat /\
    notifyLocked eventName m snapshot wb = Ok tt wc /\
    sequence wc eventName = [] /\
    goroutines wc = [GoCallback cb (EventMessage.Data m)].
Proof.
  intros w1. exists [0%nat]. eexists. eexists. eexists.
  split. { unfold mapRead. cbn. by rewrite lookup_insert_eq, lookup_empty. }
  split. { apply RegisterListener_ok. }
  split. { unfold sequence. cbn. by rewrite !lookup_insert_eq, lookup_empty. }
  split. { apply notifyLocked_ok. repeat constructor. }
  split; [|reflexivity].
  unfold sequence. cbn. by rewrite lookup_insert_eq.
Qed.

(** ** The run loop *)

Lemma onEventMessage_short topic d w :
  length (Split topic ":") < 2 ->
  onEventMessage (Message.mk topic d) w = Panic "index out of range".
Proof.
  intros Hlen. unfold onEventMessage, bind, index. cbn [Message.Topic].
  destruct (Split topic ":") as [|s1 [|s2 rest]]; cbn in *; [done|done|lia].
Qed.

(** An operation other than [emit] and [on] is logged and skipped. *)
Lemma onEventMessage_unknown topic d w s1 op rest :
  Split topic ":" = s1 :: op :: rest ->
  op <> "emit" -> op <> "on" ->
  onEventMessage (Message.mk topic d) w =
    Ok tt {| this := this w; heap := heap w; goroutines := goroutines w;
             output := output w ++ [LogError "unknown event message: %+v"];
             sync := sync w |}.
Proof.
  intros Hsplit Hemit Hon. unfold onEventMessage, bind, index.
  cbn [Message.Topic]. rewrite Hsplit. cbn [lookup list_lookup].
  apply String.eqb_neq in Hemit, Hon. by rewrite Hemit, Hon.
Qed.

(** An [emit] topic that does not have four segments is logged and
    skipped. *)
Lemma onEventMessage_emit_malformed topic d w s1 rest :
  Split topic ":" = s1 :: "emit" :: rest ->
  length rest <> 2 ->
  onEventMessage (Message.mk topic d) w =
    Ok tt {| this := this w; heap := heap w; goroutines := goroutines w;
             output := output w ++
               [LogError "Received emit message with invalid topic format. Expected 4 sections in topic, got %s"];
             sync := sync w |}.
Proof.
  intros Hsplit Hlen. unfold onEventMessage, bind, index.
  cbn [Message.Topic]. rewrite Hsplit. cbn [lookup list_lookup length].
  rewrite String.eqb_refl.
  destruct (S (S (length rest)) =? 4)%nat eqn:H4; [|done].
  apply Nat.eqb_eq in H4. lia.
Qed.

(** An [on] message registers its callback. *)
Lemma onEventMessage_on topic on w s1 rest :
  Split topic ":" = s1 :: "on" :: rest ->
  exists w',
    onEventMessage (Message.mk topic (POnEvent on)) w = Ok tt w' /\
    sequence w' (OnEventMessage.Name on) =
      sequence w (OnEventMessage.Name on) ++ [length (heap w)] /\
    heap w' = heap w ++ [mkListener (OnEventMessage.Callback on) 0 false].
Proof.
  intros Hsplit. unfold onEventMessage, bind at 1, index.
  cbn [Message.Topic Message.Data]. rewrite Hsplit. cbn [lookup list_lookup].
  cbn [String.eqb Ascii.eqb Bool.eqb assertOnEventMessage].
  unfold bind, ret. rewrite RegisterListener_ok. eexists. split; [reflexivity|].
  split; [|reflexivity].
  unfold sequence. cbn. rewrite lookup_insert_eq.
  by destruct (listeners (this w) !! OnEventMessage.Name on).
Qed.

(** The one-result type assertions are the other way for a message to
    end the goroutine. *)
Lemma onEventMessage_wrong_payload w :
  onEventMessage (Message.mk "event:emit:_:g" (POnEvent (OnEventMessage.mk "x" 7))) w
    = Panic "interface conversion" /\
  onEventMessage (Message.mk "event:on" POther) w = Panic "interface conversion".
Proof. split; reflexivity. Qed.

(** C2, as the code has it: a topic with one segment makes [splitTopic[1]]
    panic, so the message is not logged and skipped, and the loop handles
    none of the messages that follow. *)
Theorem one_segment_topic_ends_loop (d : payload) (w : World) (rest : list delivery) :
  Split "event" ":" = ["event"] /\
  onEventMessage (Message.mk "event" d) w = Panic "index out of range" /\
  loop (Deliver (Message.mk "event" d) :: rest) (with_running true w)
    = Panic "index out of range".
Proof.
  split; [reflexivity|]. split; [reflexivity|]. reflexivity.
Qed.

(** The topic [event:bogus] of two segments is logged and skipped, and
    the messages after it are handled. *)
Lemma bogus_operation_skipped d w rest :
  loop (Deliver (Message.mk "event:bogus" d) :: rest) (with_running true w) =
  loop rest {| this := this (with_running true w); heap := heap w;
               goroutines := goroutines w;
               output := output w ++ [LogError "unknown event message: %+v"];
               sync := sync w |}.
Proof. reflexivity. Qed.

(** C7: an [emit] message whose topic has four segments returns from the
    loop body; it starts the goroutine [notifyListeners] for the payload's
    event name exactly when the fourth segment is [j] or [g], and starts
    nothing and logs the unknown source otherwise.  Neither case touches
    the registry. *)
Theorem emit_notifies_iff_source_known (w : World) (topic s1 s3 source : string)
    (event : EventMessage.t) :
  Split topic ":" = [s1; "emit"; s3; source] ->
  exists w' started,
    onEventMessage (Message.mk topic (PEvent event)) w = Ok tt w' /\
    goroutines w' = goroutines w ++ started /\
    (GoNotify (EventMessage.Name event) event ∈ started <->
     source = "j" \/ source = "g") /\
    (source = "j" \/ source = "g" ->
     started = [GoNotify (EventMessage.Name event) event]) /\
    (~ (source = "j" \/ source = "g") ->
     started = [] /\
     output w' = output w ++ [LogTrace "Got Event Message: %s %+v";
                              LogError "unknown emit event message: %+v"]) /\
    this w' = this w /\ heap w' = heap w.
Proof.
  intros Hsplit. unfold onEventMessage, bind, index.
  cbn [Message.Topic Message.Data]. rewrite Hsplit.
  cbn [lookup list_lookup length Nat.eqb negb assertEventMessage ret write].
  rewrite String.eqb_refl.
  cbn [heap this goroutines output sync].
  destruct (String.eqb_spec source "j") as [->|Hj];
    [|destruct (String.eqb_spec source "g") as [->|Hg]].
  - eexists. exists [GoNotify (EventMessage.Name event) event].
    split; [reflexivity|]. split; [reflexivity|].
    split; [split; [by left|intros _; left]|].
    split; [done|]. split; [|done]. intros []. by left.
  - eexists. exists [GoNotify (EventMessage.Name event) event].
    split; [reflexivity|]. split; [reflexivity|].
    split; [split; [by right|intros _; left]|].
    split; [done|]. split; [|done]. intros []. by right.
  - eexists. exists []. split; [reflexivity|].
    split; [cbn; by rewrite app_nil_r|].
    split; [split; [by intros ?%elem_of_nil|by intros [?|?]]|].
    split; [by intros [?|?]|]. split; [|done]. intros _. split; [done|].
    cbn. by rewrite <- app_assoc.
Qed.

Lemma emit_notifies_iff_source_known_witness :
  let w := afterRegister "clicked" 3 (boot (mkEvent 0 1 true ∅ "Event Subsystem")) in
  let event := EventMessage.mk "clicked" [IInt 1; IInt 2; IInt 3] in
  Split "event:emit:_:g" ":" = ["event"; "emit"; "_"; "g"] /\
  exists w',
    onEventMessage (Message.mk "event:emit:_:g" (PEvent event)) w = Ok tt w' /\
    goroutines w' = [GoNotify "clicked" event].
Proof.
  intros w event. split; [reflexivity|].
  destruct (emit_notifies_iff_source_known w "event:emit:_:g" "event" "_" "g" event)
    as (w' & started & Hrun & Hgo & _ & Hknown & _).
  - reflexivity.
  - exists w'. split; [exact Hrun|]. rewrite Hgo, Hknown; [reflexivity|by right].
Defined.

(** The scenario of a listener registered and an event emitted through
    the bus: the loop registers the callback and starts the notification,
    and the notification, once it runs, starts the callback with the
    event's data. *)
Lemma clicked_scenario :
  let event := EventMessage.mk "clicked" [IInt 1; IInt 2; IInt 3] in
  let inbox := [Deliver (Message.mk "event:on" (POnEvent (OnEventMessage.mk "clicked" 3)));
                Deliver (Message.mk "event:emit:_:g" (PEvent event))] in
  exists w1 w2,
    loop inbox (boot (mkEvent 0 1 true ∅ "Event Subsystem")) = Ok tt w1 /\
    goroutines w1 = [GoNotify "clicked" event] /\
    notifyListeners "clicked" event w1 = Ok tt w2 /\
    goroutines w2 = [GoNotify "clicked" event;
                     GoCallback 3 [IInt 1; IInt 2; IInt 3]].
Proof.
  intros event inbox. eexists. eexists.
  split; [vm_compute; reflexivity|]. split; [reflexivity|].
  split; [vm_compute; reflexivity|]. reflexivity.
Qed.

(** ** Construction *)

(** C8: [NewEvent] returns an error and no [Event] exactly when the
    subscription to "quit" fails, or it succeeds and the subscription to
    "event" fails; the error is that of the failed subscription.
    Otherwise it returns no error and an [Event] with the two channels
    subscribed and an empty, non-nil map of listeners. *)
Theorem NewEvent_fails_iff_subscribe_fails (ServiceBus Logger : Type)
    (Subscribe : ServiceBus -> string -> ServiceBus * (Channel * option error))
    (CustomLogger : Logger -> string -> string)
    (bus : ServiceBus) (logger : Logger) :
  let quit := Subscribe bus "quit" in
  let event := Subscribe quit.1 "event" in
  let failed := is_Some quit.2.2 \/ (quit.2.2 = None /\ is_Some event.2.2) in
  let returned := (NewEvent ServiceBus Subscribe Logger CustomLogger bus logger).2 in
  ((exists err, returned = (None, Some err)) <-> failed) /\
  (failed -> returned = (None, if quit.2.2 is Some err then Some err else event.2.2)) /\
  (~ failed ->
   returned = (Some {| quitChannel := quit.2.1;
                       eventChannel := event.2.1;
                       running := false;
                       listeners := ∅;
                       logger := CustomLogger logger "Event Subsystem" |}, None)).
Proof.
  unfold NewEvent.
  destruct (Subscribe bus "quit") as [bus1 [quitChannel [err1|]]] eqn:Hq; cbn.
  - split; [split; [intros _; left; eauto|eauto]|].
    split; [done|]. intros []. left. eauto.
  - destruct (Subscribe bus1 "event") as [bus2 [eventChannel [err2|]]] eqn:He; cbn.
    + split; [split; [intros _; right; eauto|eauto]|].
      split; [done|]. intros []. right. eauto.
    + split; [split|].
      * by intros [err ?].
      * intros [[? ?]|[_ [? ?]]]; done.
      * split; [|done]. intros [[? ?]|[_ [? ?]]]; done.
Qed.

(** * Further properties of the event subsystem *)

(** ** Topics *)

Lemma Split_nonempty s sep : Split s sep <> [].
Proof.
  destruct s as [|c s]; cbn; [done|].
  destruct (Ascii.eqb c sep); [done|]. by destruct (Split s sep).
Qed.

Lemma Split_length s sep : length (Split s sep) = S (occurrences sep s).
Proof.
  induction s as [|c s IH]; cbn; [done|].
  destruct (Ascii.eqb c sep); cbn; [by rewrite IH|].
  destruct (Split s sep) as [|seg rest] eqn:Hs; [by destruct (Split_nonempty s sep)|].
  cbn in *. done.
Qed.

Lemma Split_join s sep : String.concat (String sep "") (Split s sep) = s.
Proof.
  induction s as [|c s IH]; cbn; [done|].
  destruct (Ascii.eqb_spec c sep) as [->|Hne].
  - destruct (Split s sep) as [|seg rest] eqn:Hs; [by destruct (Split_nonempty s sep)|].
    cbn [String.concat]. cbn. by rewrite <- IH.
  - destruct (Split s sep) as [|seg [|seg' rest]] eqn:Hs;
      [by destruct (Split_nonempty s sep)|..]; cbn in *; by rewrite <- IH.
Qed.

Lemma Split_segments_clean s sep :
  Forall (fun seg => occurrences sep seg = 0) (Split s sep).
Proof.
  induction s as [|c s IH]; cbn; [by repeat constructor|].
  destruct (Ascii.eqb c sep) eqn:Hc; [by constructor|].
  destruct (Split s sep) as [|seg rest]; [by repeat constructor; cbn; rewrite Hc|].
  apply Forall_cons in IH as [Hseg Hrest].
  constructor; [|done]. cbn. by rewrite Hc, Hseg.
Qed.

(** [Split] is the inverse of joining with the separator: a string has
    one segment more than it has separators, no segment holds the
    separator, and the segments joined by the separator give the string
    back. *)
Theorem Split_inverts_join (s : string) (sep : ascii) :
  length (Split s sep) = S (occurrences sep s) /\
  Forall (fun seg => occurrences sep seg = 0) (Split s sep) /\
  String.concat (String sep "") (Split s sep) = s.
Proof.
  split; [apply Split_length|]. split; [apply Split_segments_clean|apply Split_join].
Qed.

(** The loop body dies of an index out of range exactly on the topics
    that hold no colon; the later [splitTopic[3]] is behind the length
    check and never out of range. *)
Theorem index_panic_iff_no_colon (eventMessage : Message.t) (w : World) :
  onEventMessage eventMessage w = Panic "index out of range" <->
  occurrences ":" (Message.Topic eventMessage) = 0.
Proof.
  pose proof (Split_length (Message.Topic eventMessage) ":") as Hlen.
  unfold onEventMessage, bind, index.
  destruct (Split (Message.Topic eventMessage) ":") as [|s1 [|op rest]] eqn:Hs;
    cbn [length] in Hlen; cbn [lookup list_lookup].
  - lia.
  - split; [lia|done].
  - split; [|lia]. intros Hp. exfalso.
    destruct (String.eqb op "emit").
    + cbn [length] in Hp.
      destruct rest as [|s3 [|source [|? ?]]]; cbn in Hp; try done.
      destruct (Message.Data eventMessage); cbn in Hp; try done.
      destruct (String.eqb source "j"); [done|].
      by destruct (String.eqb source "g").
    + destruct (String.eqb op "on"); [|done].
      destruct (Message.Data eventMessage); cbn in Hp; done.
Qed.

Lemma onEventMessage_emit_ok topic event w s1 s3 source :
  Split topic ":" = [s1; "emit"; s3; source] ->
  exists w', onEventMessage (Message.mk topic (PEvent event)) w = Ok tt w'.
Proof.
  intros Hsplit. unfold onEventMessage, bind, index.
  cbn [Message.Topic Message.Data]. rewrite Hsplit.
  cbn [lookup list_lookup length Nat.eqb negb assertEventMessage ret write].
  rewrite String.eqb_refl.
  destruct (String.eqb source "j"); [by eexists|].
  destruct (String.eqb source "g"); by eexists.
Qed.

(** The loop body returns exactly on the messages whose topic has two
    segments or more, whose payload is an [EventMessage] when the topic
    is a four-segment [emit], and an [OnEventMessage] when the operation
    is [on]; on every other message it panics and the goroutine of
    [Start] is gone. *)
Theorem onEventMessage_returns_iff (eventMessage : Message.t) (w : World) :
  (exists w', onEventMessage eventMessage w = Ok tt w') <-> wellTyped eventMessage.
Proof.
  destruct eventMessage as [topic d]. unfold wellTyped. cbn [Message.Topic Message.Data].
  split.
  - intros [w' Hrun].
    destruct (Split topic ":") as [|s1 [|op rest]] eqn:Hs.
    + by destruct (Split_nonempty topic ":").
    + unfold onEventMessage, bind, index in Hrun. cbn in Hrun.
      by rewrite Hs in Hrun.
    + exists s1, op, rest. split; [done|]. split.
      * intros -> Hlen. destruct rest as [|s3 [|source [|? ?]]]; try done.
        unfold onEventMessage, bind, index in Hrun.
        cbn [Message.Topic Message.Data] in Hrun. rewrite Hs in Hrun.
        cbn [lookup list_lookup length Nat.eqb negb] in Hrun.
        rewrite String.eqb_refl in Hrun.
        destruct d as [event| |]; [by eexists|done|done].
      * intros ->. unfold onEventMessage, bind, index in Hrun.
        cbn [Message.Topic Message.Data] in Hrun. rewrite Hs in Hrun.
        cbn [lookup list_lookup String.eqb Ascii.eqb Bool.eqb] in Hrun.
        destruct d as [|message|]; [done|by eexists|done].
  - intros (s1 & op & rest & Hs & Hemit & Hon).
    destruct (String.eqb_spec op "emit") as [->|Hne].
    + destruct (decide (length rest = 2)) as [Hlen|Hlen].
      * destruct (Hemit eq_refl Hlen) as [event ->].
        destruct rest as [|s3 [|source [|? ?]]]; try done.
        by eapply onEventMessage_emit_ok.
      * rewrite (onEventMessage_emit_malformed _ _ _ _ _ Hs Hlen). by eexists.
    + destruct (String.eqb_spec op "on") as [->|Hne'].
      * destruct (Hon eq_refl) as [message ->].
        destruct (onEventMessage_on topic message w s1 rest Hs) as (w' & Hrun & _).
        by exists w'.
      * rewrite (onEventMessage_unknown _ _ _ _ _ _ Hs Hne Hne'). by eexists.
Qed.

(** ** The loop, message by message *)

Lemma loop_deliver eventMessage inbox w :
  running (this w) = true ->
  loop (Deliver eventMessage :: inbox) w =
    match onEventMessage eventMessage w with
    | Ok _ w' => loop inbox w'
    | Panic msg => Panic msg
    end.
Proof. intros Hrun. cbn [loop]. unfold bind at 1, getRunning. by rewrite Hrun. Qed.

(** A message with an operation other than [emit] and [on], or an [emit]
    whose topic does not have four segments, costs one error line: the
    loop goes on with the rest of its inbox in a world that differs by
    that line only. *)
Theorem loop_skips_malformed (w : World) (topic s1 op : string) (rest : list string)
    (d : payload) (inbox : list delivery) :
  running (this w) = true ->
  Split topic ":" = s1 :: op :: rest ->
  (op <> "emit" /\ op <> "on") \/ (op = "emit" /\ length rest <> 2) ->
  exists line,
    loop (Deliver (Message.mk topic d) :: inbox) w =
    loop inbox {| this := this w; heap := heap w; goroutines := goroutines w;
                  output := output w ++ [LogError line]; sync := sync w |}.
Proof.
  intros Hrun Hs [[Hemit Hon]|[-> Hlen]]; rewrite (loop_deliver _ _ _ Hrun).
  - rewrite (onEventMessage_unknown _ _ _ _ _ _ Hs Hemit Hon). by eexists.
  - rewrite (onEventMessage_emit_malformed _ _ _ _ _ Hs Hlen). by eexists.
Qed.

Lemma loop_skips_malformed_witness :
  let w := afterRegister "x" 7 (boot (mkEvent 0 1 true ∅ "Event Subsystem")) in
  exists line,
    loop [Deliver (Message.mk "event:emit:g" POther); Quit] w =
    loop [Quit] {| this := this w; heap := heap w; goroutines := goroutines w;
                   output := output w ++ [LogError line]; sync := sync w |}.
Proof.
  intros w.
  apply (loop_skips_malformed w "event:emit:g" "event" "emit" ["g"] POther [Quit]).
  - reflexivity.
  - reflexivity.
  - right. split; [reflexivity|]. cbn. lia.
Defined.

(** An [on] message registers its callback under its event name whatever
    the number of segments of its topic, and the loop goes on. *)
Theorem loop_registers_on (w : World) (topic s1 : string) (rest : list string)
    (message : OnEventMessage.t) (inbox : list delivery) :
  running (this w) = true ->
  Split topic ":" = s1 :: "on" :: rest ->
  exists w1,
    RegisterListener (OnEventMessage.Name message) (OnEventMessage.Callback message) w
      = Ok tt w1 /\
    sequence w1 (OnEventMessage.Name message) =
      sequence w (OnEventMessage.Name message) ++ [length (heap w)] /\
    loop (Deliver (Message.mk topic (POnEvent message)) :: inbox) w =
    loop inbox {| this := this w1; heap := heap w1; goroutines := goroutines w1;
                  output := output w1 ++
                    [LogTrace "Registered listener for event '%s' with callback %p"];
                  sync := sync w1 |}.
Proof.
  intros Hrun Hs. rewrite RegisterListener_ok. eexists. split; [reflexivity|].
  split.
  - unfold sequence. cbn. rewrite lookup_insert_eq.
    by destruct (listeners (this w) !! OnEventMessage.Name message).
  - rewrite (loop_deliver _ _ _ Hrun). unfold onEventMessage, bind at 1, index.
    cbn [Message.Topic Message.Data]. rewrite Hs. cbn [lookup list_lookup].
    cbn [String.eqb Ascii.eqb Bool.eqb assertOnEventMessage].
    unfold bind, ret. by rewrite RegisterListener_ok.
Qed.

Lemma loop_registers_on_witness :
  let w := boot (mkEvent 0 1 true ∅ "Event Subsystem") in
  let message := OnEventMessage.mk "clicked" 3 in
  exists w1,
    RegisterListener "clicked" 3 w = Ok tt w1 /\
    sequence w1 "clicked" = sequence w "clicked" ++ [0%nat] /\
    loop [Deliver (Message.mk "event:on:with:five:segments" (POnEvent message))] w =
    loop [] {| this := this w1; heap := heap w1; goroutines := goroutines w1;
               output := output w1 ++
                 [LogTrace "Registered listener for event '%s' with callback %p"];
               sync := sync w1 |}.
Proof.
  intros w message.
  apply (loop_registers_on w "event:on:with:five:segments" "event"
           ["with"; "five"; "segments"] message []); reflexivity.
Defined.

(** Once the quit channel delivers, the loop runs [shutdown] and ends:
    nothing that is still in the inbox is handled, whatever it is, and
    only the [running] flag and the log change. *)
Theorem quit_ends_loop (w : World) (inbox : list delivery) :
  exists w',
    loop (Quit :: inbox) w = Ok tt w' /\
    running (this w') = false /\
    output w' = output w ++ [LogTrace "Shutdown"] /\
    listeners (this w') = listeners (this w) /\
    heap w' = heap w /\
    goroutines w' = goroutines w /\
    sync w' = sync w.
Proof.
  cbn [loop]. unfold bind at 1, getRunning.
  destruct (running (this w)) eqn:Hrun.
  - unfold bind at 1, setRunning. destruct inbox as [|d inbox];
      cbn [loop]; unfold bind at 1, getRunning; cbn; by eexists.
  - eexists. split; [reflexivity|]. by cbn.
Qed.

(** ** Registration *)

(** [RegisterListener] always returns; the new record is allocated at a
    fresh pointer with counter 0 and no flag, put last in the sequence of
    its event name, and nothing that was in the heap changes; no
    goroutine starts and no line is written. *)
Theorem RegisterListener_appends (w : World) (eventName : string) (cb : Callback) :
  exists w',
    RegisterListener eventName cb w = Ok tt w' /\
    sequence w' eventName = sequence w eventName ++ [length (heap w)] /\
    heap w' !! length (heap w) = Some (mkListener cb 0 false) /\
    (forall l r, heap w !! l = Some r -> heap w' !! l = Some r) /\
    goroutines w' = goroutines w /\
    output w' = output w.
Proof.
  rewrite RegisterListener_ok. eexists. split; [reflexivity|]. split.
  - unfold sequence. cbn. rewrite lookup_insert_eq.
    by destruct (listeners (this w) !! eventName).
  - cbn. split; [by rewrite lookup_app_r, Nat.sub_diag|].
    split; [|done]. intros l r Hl. by apply lookup_app_l_Some.
Qed.

(** ** What holds in every reachable world *)

(** From a freshly constructed subsystem, registrations and
    notifications in any number and order keep the registry well formed:
    every listed pointer is allocated, no sequence lists a pointer twice,
    and no pointer is listed under two event names. *)
Theorem reachable_registry_wellformed (w : World) :
  reachable w ->
  (forall k s, listeners (this w) !! k = Some s ->
     allocated (heap w) s /\ NoDup s) /\
  (forall k1 k2 s1 s2 l,
     k1 <> k2 ->
     listeners (this w) !! k1 = Some s1 ->
     listeners (this w) !! k2 = Some s2 ->
     l ∈ s1 -> l ∉ s2).
Proof.
  intros [Hal Hnd Hap]%reachable_wf. split; [|exact Hap].
  intros k s Hk. split; [by eapply Hal|by eapply Hnd].
Qed.

Lemma reachable_two_registrations :
  reachable (afterRegister "y" 8 (afterRegister "x" 7
               (boot (mkEvent 0 1 true ∅ "Event Subsystem")))).
Proof.
  eapply reach_register; [|apply RegisterListener_ok].
  eapply reach_register; [|apply RegisterListener_ok].
  by apply reach_boot.
Defined.

Lemma reachable_registry_wellformed_witness :
  let w := afterRegister "y" 8 (afterRegister "x" 7
             (boot (mkEvent 0 1 true ∅ "Event Subsystem"))) in
  (forall k s, listeners (this w) !! k = Some s ->
     allocated (heap w) s /\ NoDup s) /\
  (forall k1 k2 s1 s2 l,
     k1 <> k2 ->
     listeners (this w) !! k1 = Some s1 ->
     listeners (this w) !! k2 = Some s2 ->
     l ∈ s1 -> l ∉ s2).
Proof.
  intros w. apply (reachable_registry_wellformed w).
  apply reachable_two_registrations.
Defined.



(** ** Counters the API never sets *)

Lemma negative_counter_kept_witness :
  let w := {| this := mkEvent 0 1 true {[ "x" := [0]%nat ]} "Event Subsystem";
              heap := [mkListener 7 (-1) false];
              goroutines := []; output := []; sync := [] |} in
  exists w', notifyListeners "x" (EventMessage.mk "x" []) w = Ok tt w' /\
             0%nat ∈ sequence w' "x" /\ heap w' !! 0%nat = Some (mkListener 7 (-1) false).
Proof.
  intros w.
  apply (negative_counter_kept w "x" (EventMessage.mk "x" []) [0%nat] 0%nat
           (mkListener 7 (-1) false)).
  - reflexivity.
  - repeat constructor.
  - apply (bool_decide_unpack _). vm_compute. exact I.
  - left.
  - reflexivity.
  - reflexivity.
  - reflexivity.
Defined.

(** ** What a notification never does *)

Lemma fired_callbacks snapshot : forall (h : list eventListener) (l : loc),
  callback <$> fired snapshot h !! l = callback <$> h !! l.
Proof.
  induction snapshot as [|a rest IH]; intros h l; [done|].
  rewrite fired_cons, IH. destruct (decide (a = l)) as [->|Hne].
  - rewrite list_lookup_alter_eq. by destruct (h !! l).
  - by rewrite list_lookup_alter_ne.
Qed.

(** A notification only ever removes: the sequence it leaves under its
    event name is the old one with some records taken out, in the old
    order; it allocates nothing and changes no callback. *)
Theorem notify_only_removes (w w' : World) (eventName : string) (m : EventMessage.t) :
  notifyListeners eventName m w = Ok tt w' ->
  sequence w' eventName `sublist_of` sequence w eventName /\
  length (heap w') = length (heap w) /\
  forall l : loc, callback <$> heap w' !! l = callback <$> heap w !! l.
Proof.
  intros Hrun. unfold sequence.
  destruct (listeners (this w) !! eventName) as [snapshot|] eqn:Hs.
  - destruct (notifyListeners_inv _ _ _ _ _ Hs Hrun) as [_ ->].
    cbn [afterNotify with_sync heap this listeners]. split.
    + destruct (marks snapshot (heap w)).
      * rewrite lookup_insert_eq. cbn. apply sublist_filter.
      * by rewrite Hs.
    + split; [apply fired_length|apply fired_callbacks].
  - rewrite (notifyListeners_absent _ _ _ Hs) in Hrun. simplify_eq. cbn.
    by rewrite Hs.
Qed.

Lemma notify_only_removes_witness :
  let w := {| this := mkEvent 0 1 true {[ "x" := [0; 1; 2]%nat ]} "Event Subsystem";
              heap := [mkListener 7 5 false; mkListener 8 1 false; mkListener 9 (-1) false];
              goroutines := []; output := []; sync := [] |} in
  exists w',
    notifyListeners "x" (EventMessage.mk "x" []) w = Ok tt w' /\
    sequence w' "x" = [0; 2]%nat /\
    sequence w' "x" `sublist_of` sequence w "x" /\
    length (heap w') = length (heap w).
Proof.
  intros w.
  destruct (notifyListeners "x" (EventMessage.mk "x" []) w) as [[] w'|msg] eqn:Hrun;
    [|by vm_compute in Hrun].
  destruct (notify_only_removes w w' "x" (EventMessage.mk "x" []) Hrun)
    as (Hsub & Hlen & _).
  exists w'. split; [reflexivity|]. split; [|by split].
  vm_compute in Hrun. by simplify_eq.
Defined.

(** ** The lock, again *)

(** A call of [notifyListeners] that returns has released the lock: the
    path without listeners returns before it is taken, the other path
    unlocks at its end, and there is no return in between. *)
Theorem notify_releases_lock (w w' : World) (eventName : string) (m : EventMessage.t) :
  notifyListeners eventName m w = Ok tt w' ->
  exists t,
    sync w' = sync w ++ t /\
    heldAfter false t = false /\
    (listeners (this w) !! eventName = None -> t = [SMapRead eventName]).
Proof.
  intros Hrun. destruct (listeners (this w) !! eventName) as [s|] eqn:Hs.
  - destruct (notifyListeners_inv _ _ _ _ _ Hs Hrun) as [_ ->].
    cbn [afterNotify with_sync sync]. rewrite <- app_assoc. eexists.
    split; [reflexivity|]. split; [|done]. by destruct (marks s _).
  - rewrite (notifyListeners_absent _ _ _ Hs) in Hrun. simplify_eq.
    exists [SMapRead eventName]. done.
Qed.

Lemma notify_releases_lock_witness :
  let w := afterRegister "x" 7 (boot (mkEvent 0 1 true ∅ "Event Subsystem")) in
  exists w' t,
    notifyListeners "x" (EventMessage.mk "x" []) w = Ok tt w' /\
    sync w' = sync w ++ t /\
    heldAfter false t = false.
Proof.
  intros w.
  destruct (notifyListeners "x" (EventMessage.mk "x" []) w) as [[] w'|msg] eqn:Hrun;
    [|by vm_compute in Hrun].
  destruct (notify_releases_lock w w' "x" (EventMessage.mk "x" []) Hrun)
    as (t & Hsync & Hheld & _).
  by exists w', t.
Defined.

(** A registration that comes between the read of the map and the taking
    of the lock is lost whenever the notification drops a listener: the
    cleanup stores the sequence rebuilt from the slice read before, which
    the new record is not in, and the new callback was not started by
    this notification either. *)
Theorem stale_snapshot_drops_registration (w : World) (eventName : string)
    (cb : Callback) (m : EventMessage.t) (snapshot : list loc) (l : loc)
    (r : eventListener) :
  listeners (this w) !! eventName = Some snapshot ->
  allocated (heap w) snapshot ->
  l ∈ snapshot ->
  heap w !! l = Some r ->
  counter r = 0%Z ->
  exists wa wb wc,
    mapRead eventName w = Ok (Some snapshot) wa /\
    RegisterListener eventName cb wa = Ok tt wb /\
    sequence wb eventName = snapshot ++ [length (heap w)] /\
    notifyLocked eventName m snapshot wb = Ok tt wc /\
    (length (heap w) ∉ sequence wc eventName) /\
    goroutines wc = goroutines w ++ launches m (heap w) snapshot.
Proof.
  intros Hs Hall Hin Hr Hz.
  set (wb := afterRegister eventName cb (with_sync (SMapRead eventName) w)).
  assert (Hallb : allocated (heap wb) snapshot).
  { unfold allocated in *. cbn. rewrite length_app.
    eapply Forall_impl; [exact Hall|]. cbn. intros; lia. }
  exists (with_sync (SMapRead eventName) w), wb, (afterNotify eventName m snapshot wb).
  split; [unfold mapRead; by rewrite Hs|].
  split; [apply RegisterListener_ok|].
  split; [unfold sequence; cbn; by rewrite lookup_insert_eq, Hs|].
  split; [by apply notifyLocked_ok|].
  split.
  - assert (Hm : marks snapshot (heap wb) = true).
    { apply marks_true.
      destruct (fired_zero_stays snapshot (heap wb) l r) as (r' & Hr' & Hz');
        [cbn; by apply lookup_app_l_Some|done|]. eauto. }
    unfold sequence. cbn [afterNotify this listeners]. rewrite Hm, lookup_insert_eq.
    cbn [default from_option id]. intros [_ Hnew]%list_elem_of_filter.
    pose proof (allocated_lt _ _ _ Hall Hnew). lia.
  - cbn [afterNotify goroutines wb afterRegister with_sync heap].
    by rewrite launches_grow.
Qed.

Lemma stale_snapshot_drops_registration_witness :
  let w := afterRegister "x" 7 (boot (mkEvent 0 1 true ∅ "Event Subsystem")) in
  let m := EventMessage.mk "x" [IInt 1] in
  exists wa wb wc,
    mapRead "x" w = Ok (Some [0%nat]) wa /\
    RegisterListener "x" 8 wa = Ok tt wb /\
    sequence wb "x" = [0%nat] ++ [length (heap w)] /\
    notifyLocked "x" m [0%nat] wb = Ok tt wc /\
    (length (heap w) ∉ sequence wc "x") /\
    goroutines wc = goroutines w ++ launches m (heap w) [0%nat].
Proof.
  intros w m.
  apply (stale_snapshot_drops_registration w "x" 8 m [0%nat] 0%nat
           (mkListener 7 0 false)).
  - reflexivity.
  - repeat constructor.
  - left.
  - reflexivity.
  - reflexivity.
Defined.

End subsystem_facts.

(** * Properties of the dependency scanner *)

Module packagemanager_facts.
Import packagemanager.

(** ** Go's order on strings *)

Lemma ascii_compare_refl a : Ascii.compare a a = Eq.
Proof. apply N.compare_refl. Qed.

Lemma string_compare_refl s : String.compare s s = Eq.
Proof.
  induction s as [|a s IH]; [done|]. cbn. by rewrite ascii_compare_refl.
Qed.

(** [compare] as a lexicographic order: what it answers on [s1], [s3]
    follows from what it answers on [s1], [s2] and on [s2], [s3]. *)
Lemma string_compare_trans c : forall s1 s2 s3,
  String.compare s1 s2 = c -> String.compare s2 s3 = c -> String.compare s1 s3 = c.
Proof.
  induction s1 as [|a1 s1 IH]; intros [|a2 s2] [|a3 s3]; cbn; try congruence.
  unfold Ascii.compare.
  destruct (N_of_ascii a1 ?= N_of_ascii a2)%N eqn:C12;
    destruct (N_of_ascii a2 ?= N_of_ascii a3)%N eqn:C23;
    intros H12 H23; try congruence.
  - apply N.compare_eq_iff in C12, C23. rewrite C12, C23, N.compare_refl. by apply (IH s2).
  - apply N.compare_eq_iff in C12. by rewrite C12, C23.
  - apply N.compare_eq_iff in C12. by rewrite C12, C23.
  - apply N.compare_eq_iff in C23. by rewrite <- C23, C12.
  - apply N.compare_lt_iff in C12, C23.
    assert ((N_of_ascii a1 ?= N_of_ascii a3)%N = Lt) as ->; [|done].
    apply N.compare_lt_iff. by eapply N.lt_trans.
  - apply N.compare_eq_iff in C23. by rewrite <- C23, C12.
  - apply N.compare_gt_iff in C12, C23.
    assert ((N_of_ascii a1 ?= N_of_ascii a3)%N = Gt) as ->; [|done].
    apply N.compare_gt_iff. by eapply N.lt_trans.
Qed.

Lemma le_trans s1 s2 s3 : le s1 s2 -> le s2 s3 -> le s1 s3.
Proof.
  unfold le, String.ltb. intros H12 H23.
  destruct (String.compare s3 s1) eqn:H31; [done| |done]. exfalso.
  destruct (String.compare s2 s1) eqn:H21; [|done|].
  - apply String.compare_eq_iff in H21 as ->. by rewrite H31 in H23.
  - destruct (String.compare s3 s2) eqn:H32; [|done|].
    + apply String.compare_eq_iff in H32 as ->. by rewrite H31 in H21.
    + rewrite String.compare_antisym in H21, H32.
      destruct (String.compare s1 s2) eqn:H12'; try done.
      destruct (String.compare s2 s3) eqn:H23'; try done.
      pose proof (string_compare_trans Lt _ _ _ H12' H23') as H13.
      rewrite String.compare_antisym, H13 in H31. done.
Qed.

(** [a < b] leaves [b < a] false. *)
Lemma lt_le s1 s2 : String.ltb s1 s2 = true -> le s1 s2.
Proof.
  unfold le, String.ltb. rewrite (String.compare_antisym s2 s1).
  by destruct (String.compare s1 s2).
Qed.

(** ** sort.Slice *)

Section Insertion.
Context {A : Type} (less : A -> A -> bool).

Hypothesis less_asym : forall a b, less a b = true -> notAfter less a b.
Hypothesis notAfter_trans :
  forall a b c, notAfter less a b -> notAfter less b c -> notAfter less a c.

Lemma insert_perm x l : insert less x l ≡ₚ x :: l.
Proof.
  induction l as [|y l IH]; cbn; [done|].
  destruct (less x y); [done|]. rewrite IH. apply Permutation_swap.
Qed.

Lemma insert_sorted x l :
  StronglySorted (notAfter less) l -> StronglySorted (notAfter less) (insert less x l).
Proof.
  induction 1 as [|y l Hl IH Hy]; cbn; [by repeat constructor|].
  destruct (less x y) eqn:Hxy.
  - constructor; [by constructor|]. constructor; [by apply less_asym|].
    eapply Forall_impl; [exact Hy|]. cbn. intros z Hz.
    eapply notAfter_trans; [|exact Hz]. by apply less_asym.
  - constructor; [exact IH|]. rewrite insert_perm. by constructor.
Qed.

Lemma sort_Slice_perm l : sort_Slice less l ≡ₚ l.
Proof.
  induction l as [|x l IH]; cbn; [done|]. by rewrite insert_perm, IH.
Qed.

Lemma sort_Slice_sorted l : StronglySorted (notAfter less) (sort_Slice less l).
Proof.
  induction l as [|x l IH]; cbn; [constructor|]. by apply insert_sorted.
Qed.
End Insertion.

Lemma StronglySorted_lookup {A} (R : A -> A -> Prop) (l : list A) :
  StronglySorted R l ->
  forall i j a b, (i < j)%nat -> l !! i = Some a -> l !! j = Some b -> R a b.
Proof.
  induction 1 as [|x l Hl IH Hx]; intros i j a b Hij Hi Hj; [done|].
  destruct j as [|j]; [lia|]. cbn in Hj. destruct i as [|i].
  - cbn in Hi. simplify_eq. rewrite Forall_forall in Hx.
    apply Hx. by eapply list_elem_of_lookup_2.
  - cbn in Hi. eapply (IH i j); [lia|done|done].
Qed.

(** ** Dependancies *)

Section Scan.
Context {P : Type} `{PackageManager P}.
Variable AppVersion : string -> string.

(** The inner loop never changes the name it was given. *)
Lemma scanPackages_name (p : P) name packages : forall dependency dependency',
  scanPackages AppVersion p name dependency packages = inl dependency' ->
  Dependancy.Name dependency' = Dependancy.Name dependency.
Proof.
  induction packages as [|pkg rest IH]; intros d d' Hscan; cbn in Hscan.
  - by simplify_eq.
  - destruct (PackageAvailable p pkg) as [available [err|]]; [done|].
    destruct available.
    + destruct (PackageInstalled p pkg) as [installed [err|]]; [done|].
      destruct installed; by simplify_eq.
    + by rewrite (IH _ _ Hscan).
Qed.

(** The outer loop appends one dependency per entry, under the entry's
    name and in the order of the entries. *)
Lemma scanAll_names (p : P) entries : forall dependencies dependencies',
  scanAll AppVersion p entries dependencies = inl dependencies' ->
  Dependancy.Name <$> dependencies' =
    (Dependancy.Name <$> dependencies) ++ (fst <$> entries).
Proof.
  induction entries as [|[name packages] rest IH]; intros ds ds' Hscan;
    cbn in Hscan.
  - simplify_eq. by rewrite app_nil_r.
  - destruct (scanPackages AppVersion p name _ packages) as [d|err] eqn:Hd; [|done].
    rewrite (IH _ _ Hscan), fmap_app. cbn.
    rewrite (scanPackages_name _ _ _ _ _ Hd). cbn. by rewrite <- app_assoc.
Qed.

(** C9: when [Dependancies] returns without an error, the list it
    returns is in ascending order of [Name]; it has one dependency per
    entry of the package map, under the names of that map. *)
Theorem Dependancies_sorted (p : P) (dependencies : list Dependancy.t) :
  Dependancies AppVersion p = (dependencies, None) ->
  sortedByName dependencies /\
  Dependancy.Name <$> dependencies ≡ₚ fst <$> Packages p.
Proof.
  unfold Dependancies.
  destruct (scanAll AppVersion p (Packages p) []) as [ds|err] eqn:Hscan; [|done].
  intros [= <-]. split.
  - unfold sortedByName. intros i j di dj.
    apply (StronglySorted_lookup
             (fun a b => String.ltb (Dependancy.Name b) (Dependancy.Name a) = false)).
    apply (sort_Slice_sorted
             (fun di dj => String.ltb (Dependancy.Name di) (Dependancy.Name dj))).
    + intros a b. apply lt_le.
    + intros a b c. apply le_trans.
  - rewrite sort_Slice_perm. by rewrite (scanAll_names _ _ _ _ Hscan).
Qed.
End Scan.

Lemma Dependancies_sorted_witness :
  let dependencies := (Dependancies (fun _ => "") Toy).1 in
  Dependancy.Name <$> dependencies = ["gcc"; "libgtk-3"; "npm"] /\
  sortedByName dependencies.
Proof.
  intros dependencies. split; [reflexivity|].
  apply (Dependancies_sorted (fun _ => "") Toy dependencies). reflexivity.
Defined.

(** * Further properties of the dependency scanner *)

(** ** Install commands *)

Lemma foldl_pointwise {A B} (f g : A -> B -> A) (l : list B) :
  (forall a b, f a b = g a b) -> forall a, foldl f a l = foldl g a l.
Proof.
  intros Hfg. induction l as [|b l IH]; intros a; cbn; [done|].
  by rewrite Hfg, IH.
Qed.

Lemma Required_fold d :
  InstallAllRequiredCommand d = foldl (installStep false) "" d.
Proof.
  apply foldl_pointwise. intros result x. unfold installStep, wanted.
  destruct (String.eqb (Dependancy.PackageName x) ""),
    (Dependancy.Installed x), (Dependancy.Optional x); reflexivity.
Qed.

Lemma Optional_fold d :
  InstallAllOptionalCommand d = foldl (installStep true) "" d.
Proof.
  apply foldl_pointwise. intros result x. unfold installStep, wanted.
  destruct (String.eqb (Dependancy.PackageName x) ""),
    (Dependancy.Installed x), (Dependancy.Optional x); reflexivity.
Qed.

Lemma append_nonempty s t : s <> "" -> s +:+ t <> "".
Proof. by destruct s. Qed.

Lemma eqb_empty s : s <> "" -> String.eqb s "" = false.
Proof. by intros ?%String.eqb_neq. Qed.

Lemma installStep_empty optional result x :
  installStep optional result x = "" <->
  result = "" /\ (wanted optional x = true -> Dependancy.InstallCommand x = "").
Proof.
  unfold installStep. destruct (wanted optional x).
  - destruct (String.eqb_spec result "") as [->|Hne].
    + split; [by intros ->|intros [_ Hx]; by apply Hx].
    + split; [by intros ?%append_nonempty|by intros [? _]].
  - split; [by intros ->|by intros [-> _]].
Qed.

Lemma install_empty optional d : forall result,
  foldl (installStep optional) result d = "" <->
  result = "" /\
  Forall (fun x => wanted optional x = true -> Dependancy.InstallCommand x = "") d.
Proof.
  induction d as [|x d IH]; intros result; cbn [foldl].
  - split; [by intros ->|by intros [-> _]].
  - rewrite IH, installStep_empty, Forall_cons. tauto.
Qed.

Lemma install_skip optional pre : forall result,
  Forall (fun x => wanted optional x = false) pre ->
  foldl (installStep optional) result pre = result.
Proof.
  induction pre as [|x pre IH]; intros result Hpre; [done|].
  apply Forall_cons in Hpre as [Hx Hpre]. cbn [foldl].
  unfold installStep at 2. rewrite Hx. by apply IH.
Qed.

Lemma install_rest optional rest : forall result,
  result <> "" ->
  foldl (installStep optional) result rest =
  foldl (fun s x => s +:+ (" " +:+ Dependancy.PackageName x)) result
        (filter (fun x => wanted optional x = true) rest).
Proof.
  induction rest as [|x rest IH]; intros result Hne; [done|].
  cbn [foldl]. rewrite filter_cons. unfold installStep at 2.
  destruct (wanted optional x) eqn:Hx.
  - rewrite decide_True by done. rewrite (eqb_empty _ Hne). cbn [foldl].
    apply IH. by apply append_nonempty.
  - rewrite decide_False by done. by apply IH.
Qed.

(** [InstallAllRequiredCommand] returns the empty string exactly when
    every dependency that counts (it has a package name and is neither
    installed nor optional) has an empty install command; in particular
    on the empty list and when nothing is missing. *)
Theorem InstallAllRequiredCommand_empty_iff (d : list Dependancy.t) :
  InstallAllRequiredCommand d = "" <->
  Forall (fun x =>
            Dependancy.PackageName x <> "" ->
            Dependancy.Installed x = false ->
            Dependancy.Optional x = false ->
            Dependancy.InstallCommand x = "") d.
Proof.
  rewrite Required_fold, install_empty. split.
  - intros [_ Hd]. eapply Forall_impl; [exact Hd|]. cbn.
    intros x Hx Hname Hinst Hopt. apply Hx. unfold wanted.
    by rewrite (eqb_empty _ Hname), Hinst, Hopt.
  - intros Hd. split; [done|]. eapply Forall_impl; [exact Hd|]. cbn.
    intros x Hx. unfold wanted. intros Hw.
    destruct (String.eqb_spec (Dependancy.PackageName x) "") as [|Hname]; [done|].
    destruct (Dependancy.Installed x) eqn:Hi; [done|].
    destruct (Dependancy.Optional x) eqn:Ho; [done|]. by apply Hx.
Qed.

(** The command is the install command of the first dependency that
    counts, followed by a space and the package name of each later one
    that counts, in order: the first one's package name enters only
    through its install command, and the install commands of the later
    ones not at all. *)
Theorem InstallAllRequiredCommand_shape (pre rest : list Dependancy.t)
    (first : Dependancy.t) :
  Forall (fun x => wanted false x = false) pre ->
  wanted false first = true ->
  Dependancy.InstallCommand first <> "" ->
  InstallAllRequiredCommand (pre ++ first :: rest) =
  foldl (fun s x => s +:+ (" " +:+ Dependancy.PackageName x))
        (Dependancy.InstallCommand first)
        (filter (fun x => wanted false x = true) rest).
Proof.
  intros Hpre Hfirst Hne.
  rewrite Required_fold, foldl_app, (install_skip false pre "" Hpre).
  cbn [foldl]. unfold installStep at 2. rewrite Hfirst. cbn [String.eqb].
  by apply install_rest.
Qed.

Lemma InstallAllRequiredCommand_shape_witness :
  let gcc := Dependancy.mk "gcc" "build-essential" true "sudo apt install build-essential" "9" false false in
  let gtk := Dependancy.mk "libgtk-3" "libgtk-3-dev" false "sudo apt install libgtk-3-dev" "" false false in
  let npm := Dependancy.mk "npm" "npm" false "sudo apt install npm" "" false false in
  let docker := Dependancy.mk "docker" "docker.io" false "sudo apt install docker.io" "" true false in
  InstallAllRequiredCommand [gcc; gtk; docker; npm] = "sudo apt install libgtk-3-dev npm".
Proof.
  intros gcc gtk npm docker.
  etrans; [apply (InstallAllRequiredCommand_shape [gcc] [docker; npm] gtk)|].
  - by repeat constructor.
  - reflexivity.
  - discriminate.
  - reflexivity.
Defined.

(** The optional command is the required command of the list with every
    [Optional] flag turned over. *)
Theorem InstallAllOptionalCommand_flip (d : list Dependancy.t) :
  InstallAllOptionalCommand d = InstallAllRequiredCommand (flipOptional <$> d).
Proof.
  rewrite Optional_fold, Required_fold. generalize "".
  induction d as [|x d IH]; intros result; cbn [foldl fmap list_fmap]; [done|].
  rewrite IH. f_equal. unfold installStep, wanted, flipOptional. cbn.
  by destruct (Dependancy.Optional x).
Qed.

(** ** Find *)

Section FindFacts.
Variable CommandExists : string -> bool.
Variable Manager : Type.
Variables NewEopkg NewApt NewYum NewPacman NewEmerge NewZypper : string -> Manager.

Local Abbreviation find :=
  (Find CommandExists Manager NewEopkg NewApt NewYum NewPacman NewEmerge NewZypper).
Local Abbreviation make :=
  (newPackageManager Manager NewEopkg NewApt NewYum NewPacman NewEmerge NewZypper).

Lemma findIn_first pre c post osid :
  Forall (fun c' => CommandExists c' = false) pre ->
  CommandExists c = true ->
  findIn CommandExists Manager NewEopkg NewApt NewYum NewPacman NewEmerge NewZypper
    (pre ++ c :: post) osid = make c osid.
Proof.
  induction pre as [|c' pre IH]; intros Hpre Hc; cbn [findIn app].
  - by rewrite Hc.
  - apply Forall_cons in Hpre as [-> Hpre]. by apply IH.
Qed.

Lemma make_known c osid : c ∈ pmcommands -> is_Some (make c osid).
Proof.
  unfold pmcommands. rewrite !elem_of_cons, elem_of_nil.
  intros [->|[->|[->|[->|[->|[->|[]]]]]]]; by eexists.
Qed.

(** [Find] returns nil exactly when none of the six commands exists:
    every command of the list has its case in [newPackageManager], so the
    nil at the end of that switch is never what [Find] returns. *)
Theorem Find_nil_iff (osid : string) :
  find osid = None <-> Forall (fun c => CommandExists c = false) pmcommands.
Proof.
  unfold Find, pmcommands. cbn [findIn]. split.
  - intros Hfind.
    repeat match type of Hfind with
           | (if CommandExists ?c then _ else _) = None =>
               destruct (CommandExists c) eqn:?; [by cbn in Hfind|]
           end.
    by repeat constructor.
  - intros Hall. repeat (apply Forall_cons in Hall as [-> Hall]). done.
Qed.

(** [Find] returns the manager of the first command of the list that
    exists: eopkg before apt, apt before yum, and so on. *)
Theorem Find_first (pre post : list string) (c osid : string) :
  pmcommands = pre ++ c :: post ->
  Forall (fun c' => CommandExists c' = false) pre ->
  CommandExists c = true ->
  find osid = make c osid /\ is_Some (find osid).
Proof.
  intros Hsplit Hpre Hc.
  assert (Hfind : find osid = make c osid).
  { unfold Find. rewrite Hsplit. by apply findIn_first. }
  split; [exact Hfind|]. rewrite Hfind. apply make_known.
  rewrite Hsplit. apply elem_of_app. right. left.
Qed.
End FindFacts.

Lemma Find_first_witness :
  let exists_ := fun c => bool_decide (c = "apt" \/ c = "pacman") in
  Find exists_ string (fun o => "eopkg:" +:+ o) (fun o => "apt:" +:+ o)
    (fun o => "yum:" +:+ o) (fun o => "pacman:" +:+ o)
    (fun o => "emerge:" +:+ o) (fun o => "zypper:" +:+ o) "ubuntu"
  = Some "apt:ubuntu".
Proof.
  intros exists_.
  apply (Find_first exists_ string (fun o => "eopkg:" +:+ o) (fun o => "apt:" +:+ o)
           (fun o => "yum:" +:+ o) (fun o => "pacman:" +:+ o)
           (fun o => "emerge:" +:+ o) (fun o => "zypper:" +:+ o)
           ["eopkg"] ["yum"; "pacman"; "emerge"; "zypper"] "apt" "ubuntu").
  - reflexivity.
  - by repeat constructor.
  - reflexivity.
Defined.

(** ** The scan of one entry *)

Section ScanFacts.
Context {P : Type} `{PackageManager P}.
Variable AppVersion : string -> string.

(** What the scan of the entry [e] gives. *)
Local Abbreviation scanned p e d :=
  (scanPackages AppVersion p e.1 (blank e.1) e.2 = inl d).

Lemma scanAll_inv (p : P) entries : forall acc ds,
  scanAll AppVersion p entries acc = inl ds ->
  exists ds', ds = acc ++ ds' /\ Forall2 (fun e d => scanned p e d) entries ds'.
Proof.
  induction entries as [|[name packages] rest IH]; intros acc ds Hscan;
    cbn [scanAll] in Hscan.
  - simplify_eq. exists []. by rewrite app_nil_r.
  - destruct (scanPackages AppVersion p name _ packages) as [d|err] eqn:Hd; [|done].
    destruct (IH _ _ Hscan) as (ds' & -> & Hrest).
    exists (d :: ds'). split; [by rewrite <- app_assoc|]. by constructor.
Qed.

Lemma scanAll_intro (p : P) entries : forall acc ds',
  Forall2 (fun e d => scanned p e d) entries ds' ->
  scanAll AppVersion p entries acc = inl (acc ++ ds').
Proof.
  induction entries as [|[name packages] rest IH]; intros acc ds' Hall;
    inv Hall; cbn [scanAll].
  - by rewrite app_nil_r.
  - cbn [fst snd] in *. unfold blank in *.
    match goal with Hd : scanPackages _ _ _ _ _ = _ |- _ => rewrite Hd end.
    rewrite (IH _ _ ltac:(eassumption)). by rewrite <- app_assoc.
Qed.

(** The packages before the first available one leave no trace, and the
    ones after it are not looked at. *)
Lemma scan_first (p : P) name pkg installed post : forall pre d0,
  Forall (fun q => PackageAvailable p q = (false, None)) pre ->
  PackageAvailable p pkg = (true, None) ->
  PackageInstalled p pkg = (installed, None) ->
  scanPackages AppVersion p name d0 (pre ++ pkg :: post) =
    inl (Dependancy.mk (Dependancy.Name d0) (Package.Name pkg)
           (if installed then true else Dependancy.Installed d0)
           (InstallCommand p pkg)
           (if installed && negb (Package.Library pkg)
            then AppVersion name else Package.Version pkg)
           (Package.Optional pkg)
           (negb (Package.SystemPackage pkg))).
Proof.
  induction pre as [|q pre IH]; intros d0 Hpre Hav Hin; cbn [app scanPackages].
  - rewrite Hav, Hin. cbn. by destruct installed, (Package.Library pkg).
  - apply Forall_cons in Hpre as [Hq Hpre]. rewrite Hq.
    by rewrite (IH _ Hpre Hav Hin).
Qed.


(** With no package available the dependency keeps the blank package
    name and version; the last package looked at leaves its [Optional],
    [SystemPackage] and install command. *)
Lemma scan_none (p : P) name : forall packages d0,
  Forall (fun q => PackageAvailable p q = (false, None)) packages ->
  scanPackages AppVersion p name d0 packages =
    inl match last packages with
        | None => d0
        | Some q =>
            Dependancy.mk (Dependancy.Name d0) (Dependancy.PackageName d0)
              (Dependancy.Installed d0) (InstallCommand p q)
              (Dependancy.Version d0) (Package.Optional q)
              (negb (Package.SystemPackage q))
        end.
Proof.
  induction packages as [|q packages IH]; intros d0 Hall; [done|].
  apply Forall_cons in Hall as [Hq Hall]. cbn [scanPackages]. rewrite Hq.
  rewrite (IH _ Hall). destruct packages as [|q' packages]; [done|].
  change (last (q :: q' :: packages)) with (last (q' :: packages)).
  destruct (last (q' :: packages)) eqn:Hlast; [done|].
  by apply last_None in Hlast.
Qed.

(** An error of the scan is an error that one of the two probes gave
    for one of the packages. *)
Lemma scan_error (p : P) name err : forall packages d0,
  scanPackages AppVersion p name d0 packages = inr err ->
  exists pkg, pkg ∈ packages /\
    ((PackageAvailable p pkg).2 = Some err \/ (PackageInstalled p pkg).2 = Some err).
Proof.
  induction packages as [|q packages IH]; intros d0 Hscan; cbn [scanPackages] in Hscan;
    [done|].
  destruct (PackageAvailable p q) as [available [e|]] eqn:Hav.
  - simplify_eq. exists q. split; [left|]. left. by rewrite Hav.
  - destruct available.
    + destruct (PackageInstalled p q) as [installed [e|]] eqn:Hin.
      * simplify_eq. exists q. split; [left|]. right. by rewrite Hin.
      * by destruct installed.
    + destruct (IH _ Hscan) as (pkg & Hpkg & Herr). exists pkg. split; [by right|done].
Qed.

Lemma scanAll_error (p : P) err : forall entries acc,
  scanAll AppVersion p entries acc = inr err ->
  exists name packages, (name, packages) ∈ entries /\
    scanPackages AppVersion p name (blank name) packages = inr err.
Proof.
  induction entries as [|[name packages] rest IH]; intros acc Hscan;
    cbn [scanAll] in Hscan; [done|].
  destruct (scanPackages AppVersion p name _ packages) as [d|e] eqn:Hd.
  - destruct (IH _ Hscan) as (n & ps & Hin & Hn). exists n, ps. split; [by right|done].
  - simplify_eq. exists name, packages. split; [left|done].
Qed.

(** Every entry of the map has its dependency in the list returned. *)
Lemma Dependancies_entry (p : P) deps name packages :
  Dependancies AppVersion p = (deps, None) ->
  (name, packages) ∈ Packages p ->
  exists d, d ∈ deps /\ scanPackages AppVersion p name (blank name) packages = inl d.
Proof.
  unfold Dependancies.
  destruct (scanAll AppVersion p (Packages p) []) as [ds|err] eqn:Hscan; [|done].
  intros [= <-] Hin.
  destruct (scanAll_inv _ _ _ _ Hscan) as (ds' & -> & Hall). cbn [app] in *.
  apply list_elem_of_lookup in Hin as [i Hi].
  destruct (Forall2_lookup_l _ _ _ _ _ Hall Hi) as (d & Hd & Hsc).
  exists d. split; [|exact Hsc].
  rewrite sort_Slice_perm. by eapply list_elem_of_lookup_2.
Qed.


(** When none of the packages of an entry is available, its dependency
    has no package name, is not installed and has no version, and so
    counts for neither install command. *)
Theorem Dependancies_none_available (p : P) (deps : list Dependancy.t)
    (name : string) (packages : list Package.t) :
  Dependancies AppVersion p = (deps, None) ->
  (name, packages) ∈ Packages p ->
  Forall (fun q => PackageAvailable p q = (false, None)) packages ->
  exists d,
    d ∈ deps /\
    Dependancy.Name d = name /\
    Dependancy.PackageName d = "" /\
    Dependancy.Installed d = false /\
    Dependancy.Version d = "" /\
    wanted false d = false /\ wanted true d = false.
Proof.
  intros Hdeps Hin Hnone.
  destruct (Dependancies_entry _ _ _ _ Hdeps Hin) as (d & Hd & Hscan).
  rewrite (scan_none _ _ _ _ Hnone) in Hscan. exists d. split; [done|].
  destruct (last packages); simplify_eq; done.
Qed.

(** When [Dependancies] returns an error it returns the nil list with
    it, and the error is one that [PackageAvailable] or
    [PackageInstalled] gave for a package of the map. *)
Theorem Dependancies_error (p : P) (err : error) :
  (Dependancies AppVersion p).2 = Some err ->
  (Dependancies AppVersion p).1 = [] /\
  exists name packages pkg,
    (name, packages) ∈ Packages p /\ pkg ∈ packages /\
    ((PackageAvailable p pkg).2 = Some err \/ (PackageInstalled p pkg).2 = Some err).
Proof.
  unfold Dependancies.
  destruct (scanAll AppVersion p (Packages p) []) as [ds|e] eqn:Hscan; [done|].
  cbn. intros [= ->]. split; [done|].
  destruct (scanAll_error _ _ _ _ Hscan) as (name & packages & Hin & Hsc).
  destruct (scan_error _ _ _ _ _ Hsc) as (pkg & Hpkg & Herr).
  by exists name, packages, pkg.
Qed.
End ScanFacts.


Lemma Dependancies_none_available_witness :
  let t := mkTable [("npm", [tool "nodejs-npm" "6"; tool "npm" "7"]);
                    ("gcc", [tool "build-essential" "9"])]
                   ["nodejs-npm"; "npm"] [] [] in
  exists d,
    d ∈ (Dependancies (fun _ => "") t).1 /\
    Dependancy.Name d = "npm" /\
    Dependancy.PackageName d = "" /\
    Dependancy.Installed d = false /\
    Dependancy.Version d = "" /\
    wanted false d = false /\ wanted true d = false.
Proof.
  intros t.
  apply (Dependancies_none_available (fun _ => "") t (Dependancies (fun _ => "") t).1
           "npm" [tool "nodejs-npm" "6"; tool "npm" "7"]).
  - reflexivity.
  - left.
  - by repeat constructor.
Defined.

Lemma Dependancies_error_witness :
  let t := mkTable [("npm", [tool "nodejs-npm" "6"; tool "npm" "7"]);
                    ("gcc", [tool "build-essential" "9"])]
                   ["nodejs-npm"] [] ["build-essential"] in
  (Dependancies (fun _ => "") t).1 = [] /\
  exists name packages pkg,
    (name, packages) ∈ Packages t /\ pkg ∈ packages /\
    ((PackageAvailable t pkg).2 = Some "probe failed" \/
     (PackageInstalled t pkg).2 = Some "probe failed").
Proof.
  intros t. apply (Dependancies_error (fun _ => "") t "probe failed"). reflexivity.
Defined.

(** ** The order of the visit *)

Lemma Forall2_perm {A B} (R : A -> B -> Prop) (l1 l2 : list A) :
  l1 ≡ₚ l2 ->
  forall k1, Forall2 R l1 k1 -> exists k2, Forall2 R l2 k2 /\ k1 ≡ₚ k2.
Proof.
  induction 1 as [|x l1 l2 _ IH|x y l|l1 l2 l3 _ IH12 _ IH23]; intros k1 Hk1.
  - inv Hk1. by exists [].
  - inv Hk1. destruct (IH _ ltac:(eassumption)) as (k2 & Hk2 & Hp).
    eexists (_ :: k2). split; [by constructor|by constructor].
  - inv Hk1. match goal with Hl : Forall2 _ (_ :: _) _ |- _ => inv Hl end.
    eexists (_ :: _ :: _). split; [by repeat constructor|apply Permutation_swap].
  - destruct (IH12 _ Hk1) as (k2 & Hk2 & Hp12).
    destruct (IH23 _ Hk2) as (k3 & Hk3 & Hp23).
    exists k3. split; [done|by etrans].
Qed.

Lemma same_name_same (l : list Dependancy.t) x y :
  NoDup (Dependancy.Name <$> l) -> x ∈ l -> y ∈ l ->
  Dependancy.Name x = Dependancy.Name y -> x = y.
Proof.
  induction l as [|z l IH]; intros Hnd Hx Hy Hxy; [by apply elem_of_nil in Hx|].
  cbn in Hnd. apply NoDup_cons in Hnd as [Hz Hnd].
  apply elem_of_cons in Hx as [->|Hx]; apply elem_of_cons in Hy as [->|Hy]; [done|..].
  - destruct Hz. rewrite Hxy. by apply list_elem_of_fmap_2.
  - destruct Hz. rewrite <- Hxy. by apply list_elem_of_fmap_2.
  - by apply IH.
Qed.

Lemma ltb_both_false s1 s2 :
  String.ltb s1 s2 = false -> String.ltb s2 s1 = false -> s1 = s2.
Proof.
  unfold String.ltb. rewrite (String.compare_antisym s2 s1).
  destruct (String.compare s1 s2) eqn:Hc; try done.
  intros _ _. by apply String.compare_eq_iff.
Qed.

Section OrderFacts.
Context {P : Type} `{PackageManager P}.
Variable AppVersion : string -> string.

(** Go leaves the order in which [range] visits the package map open.
    With the names of the map distinct, as the keys of a map are, a list
    that [Dependancies] returns for one order of visit is the list it
    returns for every order. *)
Theorem Dependancies_order_independent (p : P) (visit : list (string * list Package.t))
    (deps : list Dependancy.t) :
  visit ≡ₚ Packages p ->
  NoDup (fst <$> Packages p) ->
  Dependancies AppVersion p = (deps, None) ->
  DependanciesIn AppVersion p visit = (deps, None).
Proof.
  intros Hperm Hnd. unfold Dependancies, DependanciesIn.
  destruct (scanAll AppVersion p (Packages p) []) as [ds|err] eqn:Hscan; [|done].
  intros [= <-].
  destruct (scanAll_inv _ _ _ _ _ Hscan) as (ds' & -> & Hall). cbn [app] in *.
  symmetry in Hperm.
  destruct (Forall2_perm _ _ _ Hperm _ Hall) as (ds2 & Hall2 & Hp).
  rewrite (scanAll_intro _ _ _ [] _ Hall2). cbn [app]. f_equal.
  assert (Hnames : NoDup (Dependancy.Name <$> ds')).
  { pose proof (scanAll_names _ _ _ _ _ Hscan) as Hn. cbn in Hn. by rewrite Hn. }
  set (less := fun di dj => String.ltb (Dependancy.Name di) (Dependancy.Name dj)).
  symmetry.
  apply (StronglySorted_unique_strong (notAfter less)).
  - intros x1 x2 Hx1 Hx2 H12 H21.
    rewrite sort_Slice_perm in Hx1, Hx2. rewrite <- Hp in Hx2.
    apply (same_name_same ds'); [done..|].
    unfold notAfter, less in H12, H21. by apply ltb_both_false.
  - apply sort_Slice_sorted; [intros a b; apply lt_le|intros a b c; apply le_trans].
  - apply sort_Slice_sorted; [intros a b; apply lt_le|intros a b c; apply le_trans].
  - by rewrite !sort_Slice_perm.
Qed.
End OrderFacts.

Lemma Dependancies_order_independent_witness :
  let t := mkTable [("npm", [tool "npm" "7"]); ("gcc", [tool "build-essential" "9"]);
                    ("docker", [tool "docker.io" "20"])]
                   ["docker.io"] ["npm"] [] in
  let visit := [("docker", [tool "docker.io" "20"]); ("npm", [tool "npm" "7"]);
                ("gcc", [tool "build-essential" "9"])] in
  DependanciesIn (fun _ => "") t visit = Dependancies (fun _ => "") t /\
  Dependancy.Name <$> (Dependancies (fun _ => "") t).1 = ["docker"; "gcc"; "npm"].
Proof.
  intros t visit. split; [|reflexivity].
  etrans; [apply (Dependancies_order_independent (fun _ => "") t visit
                    (Dependancies (fun _ => "") t).1)|reflexivity].
  - apply (Permutation_cons_append
             [("npm", [tool "npm" "7"]); ("gcc", [tool "build-essential" "9"])]).
  - apply (bool_decide_unpack _). vm_compute. exact I.
  - reflexivity.
Defined.

(** ** Versions *)

Section VersionFacts.
Context {P : Type} `{PackageManager P}.
Variable RunCommand : string -> string -> list string -> string * string * option error.
Variable TrimSpace : string -> string.
Variable TrimPrefix : string -> string -> string.
Variable ReplaceAll : string -> string -> string -> string.

Local Abbreviation appVersion := (AppVersion RunCommand TrimSpace TrimPrefix ReplaceAll).

(** [AppVersion] knows four names.  When the package that settles an
    entry is installed and not a library, and the entry's name is not
    one of gcc, pkg-config, npm and docker, the dependency is reported as
    installed with an empty version: the version of the package itself
    is not used. *)
Theorem unknown_tool_has_no_version (p : P) (deps : list Dependancy.t)
    (name : string) (pre post : list Package.t) (pkg : Package.t) :
  Dependancies appVersion p = (deps, None) ->
  (name, pre ++ pkg :: post) ∈ Packages p ->
  Forall (fun q => PackageAvailable p q = (false, None)) pre ->
  PackageAvailable p pkg = (true, None) ->
  PackageInstalled p pkg = (true, None) ->
  Package.Library pkg = false ->
  name ∉ ["gcc"; "pkg-config"; "npm"; "docker"] ->
  exists d,
    d ∈ deps /\
    Dependancy.Name d = name /\
    Dependancy.PackageName d = Package.Name pkg /\
    Dependancy.Installed d = true /\
    Dependancy.Version d = "".
Proof.
  intros Hdeps Hin Hpre Hav Hinst Hlib Hname.
  destruct (Dependancies_entry _ _ _ _ _ Hdeps Hin) as (d & Hd & Hscan).
  rewrite (scan_first _ _ _ _ _ _ _ _ Hpre Hav Hinst) in Hscan.
  exists d. split; [done|]. simplify_eq. cbn. rewrite Hlib. cbn.
  do 3 (split; [done|]). unfold AppVersion.
  rewrite !not_elem_of_cons in Hname. destruct Hname as (H1 & H2 & H3 & H4 & _).
  apply String.eqb_neq in H1, H2, H3, H4. by rewrite H1, H2, H3, H4.
Qed.
End VersionFacts.

Lemma unknown_tool_has_no_version_witness :
  let t := mkTable [("upx", [tool "upx-ucl" "3.96"]); ("gcc", [tool "build-essential" "9"])]
                   [] ["upx-ucl"] [] in
  let run := fun (_ _ : string) (_ : list string) => ("9.3.0", "", None : option error) in
  exists d,
    d ∈ (Dependancies (AppVersion run id (fun s _ => s) (fun s _ _ => s)) t).1 /\
    Dependancy.Name d = "upx" /\
    Dependancy.PackageName d = "upx-ucl" /\
    Dependancy.Installed d = true /\
    Dependancy.Version d = "".
Proof.
  intros t run.
  apply (unknown_tool_has_no_version run id (fun s _ => s) (fun s _ _ => s) t
           (Dependancies (AppVersion run id (fun s _ => s) (fun s _ _ => s)) t).1
           "upx" [] [] (tool "upx-ucl" "3.96")).
  - reflexivity.
  - left.
  - constructor.
  - reflexivity.
  - reflexivity.
  - reflexivity.
  - apply (bool_decide_unpack _). vm_compute. exact I.
Defined.

End packagemanager_facts.
